(** * rtc-taskqueue: a shallow embedding of [src/index.js]

    The module exports one function, [module.exports = function(pc, opts)],
    which closes over a priority queue of pending tasks, the single-flight
    slot [currentTask], the timer handle [checkQueueTimer] and the managed
    peer connection [pc].  The closure's variables become the fields of the
    record [State]; every inner function of the closure becomes a function
    on that record. *)

From stdpp Require Import base numbers list strings.
From Stdlib Require Import ZArith Lia.

Local Open Scope string_scope.
Local Open Scope Z_scope.
#[local] Set Warnings "-register-all".

(** ** JavaScript values

    The payloads handed to the queue are plain data: candidates, session
    descriptions, events, errors.  Only the operations the source performs on
    them are modelled: property read, truthiness, and comparison with
    [null]. *)

Inductive value : Type :=
| VUndefined
| VNull
| VBool (b : bool)
| VNum (n : Z)
| VStr (s : string)
| VObj (fields : list (string * value))
| VError (message : string).

(** [if (v)], [! v], [v && w]: the truthiness of a value. *)
Definition truthy (v : value) : bool :=
  match v with
  | VUndefined | VNull => false
  | VBool b => b
  | VNum n => negb (n =? 0)
  | VStr s => negb (String.eqb s EmptyString)
  | VObj _ | VError _ => true
  end.

(** [v !== null] *)
Definition notNull (v : value) : bool :=
  match v with
  | VNull => false
  | _ => true
  end.

(** Code that may throw: [Ok] is normal completion, [Throw] an exception
    travelling up the call stack. *)
Inductive Result (A : Type) : Type :=
| Ok (a : A)
| Throw (e : value).

Arguments Ok {A} a.
Arguments Throw {A} e.

#[global] Instance Result_ret : MRet Result := fun A a => Ok a.

#[global] Instance Result_bind : MBind Result := fun A B k r =>
  match r with
  | Ok a => k a
  | Throw e => Throw e
  end.

Fixpoint assoc (k : string) (fields : list (string * value)) : value :=
  match fields with
  | [] => VUndefined
  | (k', v) :: rest => if String.eqb k' k then v else assoc k rest
  end.

(** [v.k]: reading a property of [undefined] or [null] throws a TypeError;
    a primitive has none of the properties read here. *)
Definition getProp (v : value) (k : string) : Result value :=
  match v with
  | VUndefined => Throw (VError ("Cannot read properties of undefined (reading '" +:+ k +:+ "')"))
  | VNull => Throw (VError ("Cannot read properties of null (reading '" +:+ k +:+ "')"))
  | VObj fields => Ok (assoc k fields)
  | VError m => Ok (if String.eqb k "message" then VStr m else VUndefined)
  | VBool _ | VNum _ | VStr _ => Ok VUndefined
  end.

(** ** The managed resource

    [pc] is an external collaborator.  The queue reads three of its
    properties, asks whether a property is a function ([typeof pc[name]]),
    and calls methods on it.  What [pc.addIceCandidate] does with a
    candidate is the platform's business; the model only records whether the
    call raises. *)

Record PeerConnection : Type := {
  signalingState : string;
  localDescription : value;
  remoteDescription : value;
  hasMethod : string -> bool;
  addIceCandidateRaises : value -> option value
}.

(** ** Constants *)

Definition PRIORITY_LOW : Z := 100.
Definition PRIORITY_WAIT : Z := 1000.

(** priority order (lower is better) *)
Definition DEFAULT_PRIORITIES : list string :=
  [ "candidate";
    "setLocalDescription";
    "setRemoteDescription";
    "createAnswer";
    "createOffer" ].

(** ** Readiness checks *)

Definition hasLocalOrRemoteDescription (pc : PeerConnection) : bool :=
  notNull (localDescription pc) || notNull (remoteDescription pc).

Definition isNotNegotiating (pc : PeerConnection) : bool :=
  negb (String.eqb (signalingState pc) "have-local-offer").

Definition isNotClosed (pc : PeerConnection) : bool :=
  negb (String.eqb (signalingState pc) "closed").

Definition isStable (pc : PeerConnection) : bool :=
  String.eqb (signalingState pc) "stable".

(** ** Tasks

    A task is the object literal built in [enqueue].  Its [fn] is one of the
    two execution strategies of the module; its handlers are functions of the
    module too, so they are named here and interpreted by [runHandler]
    below. *)

Inductive TaskFn : Type :=
| ApplyCandidate
| ExecMethod.

Inductive Handler : Type :=
| H_abortQueue
| H_emitSdp
| H_completeConnection
| H_defaultFail
| H_tq_addIceCandidate
| H_tq_setLocalDescription
| H_tq_setRemoteDescription
| H_tq_createOffer
| H_tq_createAnswer.

Record Task : Type := {
  args : list value;
  name : string;
  fn : TaskFn;
  checks : list (PeerConnection -> bool);
  pass : option Handler;
  fail : option Handler
}.

(** check whether a task is ready (does it pass all the checks) *)
Definition testReady (pc : PeerConnection) (task : Task) : bool :=
  fold_left (fun memo check => memo && check pc) (checks task) true.

(** ** The comparator *)

(** [Array.prototype.indexOf]: the first position holding [x], or [-1]. *)
Fixpoint indexOfFrom (i : Z) (l : list string) (x : string) : Z :=
  match l with
  | [] => -1
  | y :: rest => if String.eqb y x then i else indexOfFrom (i + 1) rest x
  end.

Definition indexOf (l : list string) (x : string) : Z := indexOfFrom 0 l x.

(** The function mapped over the zipped [task, readiness] pairs. *)
Definition taskPriority (prios : list string) (task : Task) (ready : bool) : Z :=
  let priority := indexOf prios (name task) in
  if ready then (if priority >=? 0 then priority else PRIORITY_LOW) else PRIORITY_WAIT.

Definition orderTasks (prios : list string) (pc : PeerConnection) (a b : Task) : Z :=
  let tasks := [a; b] in
  let readiness := map (testReady pc) tasks in
  let taskPriorities :=
    map (fun p : Task * bool => taskPriority prios (fst p) (snd p))
        (combine tasks readiness) in
  nth 1 taskPriorities 0 - nth 0 taskPriorities 0.

(** The rank the comparator computes for one task. *)
Definition rank (prios : list string) (pc : PeerConnection) (t : Task) : Z :=
  taskPriority prios t (testReady pc t).

(** ** The queue

    [new PriorityQueue(orderTasks)]: the class is the [priorityqueuejs]
    package, a dependency that is not among this repository's sources.  The
    model follows that package: a binary heap stored in an array, whose
    element at index 0 is the greatest for the comparator.  [enq] pushes the
    element and sifts it up, [deq] moves the last element to the front and
    sifts it down, [peek] reads index 0.  The comparator is consulted only
    while an element is sifted. *)

(** [Math.floor((current - 1) / 2)] *)
Definition parentOf (current : nat) : nat := ((current - 1) / 2)%nat.

Section PriorityQueue.

Context {A : Type}.
Variable comparator : A -> A -> Z.

Definition isEmpty (elements : list A) : bool :=
  match elements with
  | [] => true
  | _ => false
  end.

(** [peek] throws on an empty queue: [None]. *)
Definition peek (elements : list A) : option A := elements !! 0%nat.

Definition _compare (elements : list A) (a b : nat) : Z :=
  match elements !! a, elements !! b with
  | Some x, Some y => comparator x y
  | _, _ => 0
  end.

Definition _swap (elements : list A) (a b : nat) : list A :=
  match elements !! a, elements !! b with
  | Some x, Some y => <[b:=x]> (<[a:=y]> elements)
  | _, _ => elements
  end.

(** The [while (current > 0)] loop of [enq]; [current] shrinks at every
    turn, so [fuel] above [current] is never exhausted. *)
Fixpoint siftUp (fuel : nat) (elements : list A) (current : nat) : list A :=
  match fuel with
  | O => elements
  | S fuel' =>
      if (0 <? current)%nat then
        let parent := parentOf current in
        if _compare elements current parent <=? 0 then elements
        else siftUp fuel' (_swap elements parent current) parent
      else elements
  end.

Definition enq (elements : list A) (element : A) : list A :=
  let pushed := (elements ++ [element])%list in
  let size := length pushed in
  siftUp size pushed (size - 1)%nat.

(** The [while (current < size)] loop of [deq]; [current] grows at every
    turn. *)
Fixpoint siftDown (fuel : nat) (elements : list A) (current : nat) : list A :=
  match fuel with
  | O => elements
  | S fuel' =>
      let size := length elements in
      if (current <? size)%nat then
        let left := (2 * current + 1)%nat in
        let right := (2 * current + 2)%nat in
        let largest :=
          if (left <? size)%nat && (_compare elements left current >=? 0)
          then left else current in
        let largest :=
          if (right <? size)%nat && (_compare elements right largest >=? 0)
          then right else largest in
        if (largest =? current)%nat then elements
        else siftDown fuel' (_swap elements largest current) largest
      else elements
  end.

(** [deq] throws on an empty queue: [None]. *)
Definition deq (elements : list A) : option (A * list A) :=
  match elements with
  | [] => None
  | first :: _ =>
      let last := List.last elements first in
      let popped := removelast elements in
      let size := length popped in
      if (size =? 0)%nat then Some (first, popped)
      else Some (first, siftDown size (<[0%nat:=last]> popped) 0)
  end.

End PriorityQueue.

(** ** Options and closure state *)

(** [opts]: the priority table and the factories for candidates and session
    descriptions (a plugin's, [opts]' or the detected platform
    constructor; all three are supplied from outside). *)
Record Options : Type := {
  opts_priorities : option (list string);
  createIceCandidate : value -> Result value;
  createSessionDescription : value -> Result value
}.

(** [(opts || {}).priorities || DEFAULT_PRIORITIES] *)
Definition priorities (opts : Options) : list string :=
  default DEFAULT_PRIORITIES (opts_priorities opts).

(** What the module does to the outside world, in order. *)
Inductive Event : Type :=
| ConsoleError (e : value)
| ConsoleWarn (msg : string) (e : value)
| Debug (msg : string)
| Emit (event : string) (payload : list value)
| PcCall (method : string) (arguments : list value).

(** [checkQueueTimer] holds the delay of the pending timeout, if one is
    pending: [clearTimeout] followed by [setTimeout] leaves exactly one. *)
Record State : Type := {
  queue : list Task;
  currentTask : option Task;
  checkQueueTimer : option Z;
  pc : PeerConnection;
  trace : list Event
}.

Definition setQueue (q : list Task) (st : State) : State :=
  {| queue := q; currentTask := currentTask st;
     checkQueueTimer := checkQueueTimer st; pc := pc st; trace := trace st |}.

Definition setCurrentTask (t : option Task) (st : State) : State :=
  {| queue := queue st; currentTask := t;
     checkQueueTimer := checkQueueTimer st; pc := pc st; trace := trace st |}.

Definition setTimer (d : option Z) (st : State) : State :=
  {| queue := queue st; currentTask := currentTask st;
     checkQueueTimer := d; pc := pc st; trace := trace st |}.

Definition setPc (p : PeerConnection) (st : State) : State :=
  {| queue := queue st; currentTask := currentTask st;
     checkQueueTimer := checkQueueTimer st; pc := p; trace := trace st |}.

Definition log (e : Event) (st : State) : State :=
  {| queue := queue st; currentTask := currentTask st;
     checkQueueTimer := checkQueueTimer st; pc := pc st;
     trace := (trace st ++ [e])%list |}.

(** A function of the closure either returns or lets an exception escape;
    either way the closure's variables keep what was written to them. *)
Inductive Completion : Type :=
| Normal (st : State)
| Abrupt (e : value) (st : State).

Definition andThen (c : Completion) (k : State -> Completion) : Completion :=
  match c with
  | Normal st => k st
  | Abrupt e st => Abrupt e st
  end.

Definition stateOf (c : Completion) : State :=
  match c with
  | Normal st => st
  | Abrupt _ st => st
  end.

(** ** The closure's functions *)

Definition abortQueue (err : value) (st : State) : State :=
  log (ConsoleError err) st.

(** [clearTimeout(checkQueueTimer); checkQueueTimer = setTimeout(checkQueue, wait || 5)] *)
Definition triggerQueueCheck (wait : option Z) (st : State) : State :=
  let delay :=
    match wait with
    | Some w => if w =? 0 then 5 else w
    | None => 5
    end in
  setTimer (Some delay) st.

(** The third argument of [enqueue]. *)
Record EnqueueOpts : Type := {
  opt_checks : list (PeerConnection -> bool);
  opt_processArgs : option (value -> Result value);
  opt_pass : option Handler;
  opt_fail : option Handler
}.

(** [args.map(f)] for an [f] that may throw. *)
Fixpoint mapArgs (f : value -> Result value) (l : list value) : Result (list value) :=
  match l with
  | [] => Ok []
  | x :: rest =>
      y ← f x;
      ys ← mapArgs f rest;
      Ok (y :: ys)
  end.

(** The object literal handed to [queue.enq]. *)
Definition mkTask (nm : string) (handler : TaskFn) (o : EnqueueOpts)
    (arguments : list value) : Task :=
  {| args := arguments;
     name := nm;
     fn := handler;
     checks := ([] ++ opt_checks o)%list;
     pass := opt_pass o;
     fail := opt_fail o |}.

(** The function returned by [enqueue(name, handler, opts)]. *)
Definition enqueue (opts : Options) (nm : string) (handler : TaskFn)
    (o : EnqueueOpts) (arguments : list value) (st : State) : Completion :=
  let processed :=
    match opt_processArgs o with
    | Some f => mapArgs f arguments
    | None => Ok arguments
    end in
  match processed with
  | Throw e => Abrupt e st
  | Ok arguments' =>
      let st := log (Debug ("queueing: " +:+ nm)) st in
      let st :=
        setQueue (enq (orderTasks (priorities opts) (pc st)) (queue st)
                      (mkTask nm handler o arguments')) st in
      Normal (triggerQueueCheck None st)
  end.

(** The five registrations at the end of the module. *)
Definition reg_addIceCandidate : EnqueueOpts :=
  {| opt_checks := [hasLocalOrRemoteDescription];
     opt_processArgs := None; opt_pass := None; opt_fail := None |}.

Definition reg_setLocalDescription : EnqueueOpts :=
  {| opt_checks := [];
     opt_processArgs := None; opt_pass := Some H_emitSdp; opt_fail := None |}.

Definition reg_setRemoteDescription (opts : Options) : EnqueueOpts :=
  {| opt_checks := [isNotClosed];
     opt_processArgs := Some (createSessionDescription opts);
     opt_pass := Some H_completeConnection; opt_fail := None |}.

Definition reg_createOffer : EnqueueOpts :=
  {| opt_checks := [isNotClosed; isNotNegotiating];
     opt_processArgs := None; opt_pass := Some H_tq_setLocalDescription;
     opt_fail := None |}.

Definition reg_createAnswer : EnqueueOpts :=
  {| opt_checks := [isNotClosed];
     opt_processArgs := None; opt_pass := Some H_tq_setLocalDescription;
     opt_fail := None |}.

Definition tq_addIceCandidate (opts : Options) :=
  enqueue opts "addIceCandidate" ApplyCandidate reg_addIceCandidate.

Definition tq_setLocalDescription (opts : Options) :=
  enqueue opts "setLocalDescription" ExecMethod reg_setLocalDescription.

Definition tq_setRemoteDescription (opts : Options) :=
  enqueue opts "setRemoteDescription" ExecMethod (reg_setRemoteDescription opts).

Definition tq_createOffer (opts : Options) :=
  enqueue opts "createOffer" ExecMethod reg_createOffer.

Definition tq_createAnswer (opts : Options) :=
  enqueue opts "createAnswer" ExecMethod reg_createAnswer.

Definition completeConnection (opts : Options) (st : State) : Completion :=
  if String.eqb (signalingState (pc st)) "have-remote-offer"
  then tq_createAnswer opts [] st
  else Normal st.

Definition emitSdp (st : State) : State :=
  log (Emit "sdp" [localDescription (pc st)]) st.

(** [tq.emit.bind(tq, 'fail')] *)
Definition defaultFail (arguments : list value) (st : State) : State :=
  log (Emit "fail" arguments) st.

(** Calling a handler with an argument list. *)
Definition runHandler (opts : Options) (h : Handler) (arguments : list value)
    (st : State) : Completion :=
  match h with
  | H_abortQueue => Normal (abortQueue (nth 0 arguments VUndefined) st)
  | H_emitSdp => Normal (emitSdp st)
  | H_completeConnection => completeConnection opts st
  | H_defaultFail => Normal (defaultFail arguments st)
  | H_tq_addIceCandidate => tq_addIceCandidate opts arguments st
  | H_tq_setLocalDescription => tq_setLocalDescription opts arguments st
  | H_tq_setRemoteDescription => tq_setRemoteDescription opts arguments st
  | H_tq_createOffer => tq_createOffer opts arguments st
  | H_tq_createAnswer => tq_createAnswer opts arguments st
  end.

(** The callback [function(err) { ... }] that [checkQueue] hands to the
    task's strategy; [results] are its arguments after [err].  It reads the
    slot when it is called: on an empty slot [currentTask.fail] throws. *)
Definition continuation (opts : Options) (err : value) (results : list value)
    (st : State) : Completion :=
  match currentTask st with
  | None => Abrupt (VError "Cannot read properties of null (reading 'fail')") st
  | Some task =>
      let fail := default H_defaultFail (fail task) in
      let pass := pass task in
      (* unset the current task *)
      let st := setCurrentTask None st in
      (* if errored, fail *)
      if truthy err then
        runHandler opts fail [err] (log (ConsoleError err) st)
      else
        andThen
          match pass with
          | Some h => runHandler opts h results st
          | None => Normal st
          end
          (fun st => Normal (triggerQueueCheck None st))
  end.

Definition dquote : string := String (Ascii.ascii_of_nat 34) EmptyString.

Definition unsupported (nm : string) : value :=
  VError ("cannot call " +:+ dquote +:+ nm +:+ dquote +:+ " on RTCPeerConnection").

(** [fn.apply(pc, task.args.concat([ success, next ]))] starts the
    operation; the resource answers later through [success] or [next]. *)
Definition execMethod (opts : Options) (task : Task) (st : State) : Completion :=
  if hasMethod (pc st) (name task) then
    Normal (log (PcCall (name task) (args task)) st)
  else
    continuation opts (unsupported (name task)) [] st.

(** The resource calling [success(...results)]: [next(null, ...results)]. *)
Definition success (opts : Options) (results : list value) (st : State) : Completion :=
  continuation opts VNull results st.

Definition invalidCandidate : string := "invalid ice candidate: ".

(** The [try { ... } catch (e) { console.warn(...) }] block. *)
Definition tryAddIceCandidate (opts : Options) (data : value) (st : State) : State :=
  match createIceCandidate opts data with
  | Throw e => log (ConsoleWarn invalidCandidate e) st
  | Ok candidate =>
      if hasMethod (pc st) "addIceCandidate" then
        let st := log (PcCall "addIceCandidate" [candidate]) st in
        match addIceCandidateRaises (pc st) candidate with
        | Some e => log (ConsoleWarn invalidCandidate e) st
        | None => st
        end
      else
        log (ConsoleWarn invalidCandidate
               (VError "pc.addIceCandidate is not a function")) st
  end.

(** The payload after [if (data.srcElement && data.candidate) data = data.candidate]. *)
Definition candidateData (data : value) : Result value :=
  srcElement ← getProp data "srcElement";
  if truthy srcElement then
    candidate ← getProp data "candidate";
    if truthy candidate then getProp data "candidate" else Ok data
  else Ok data.

Definition applyCandidate (opts : Options) (task : Task) (st : State) : Completion :=
  let data := nth 0 (args task) VUndefined in
  (* if we have been passed an event, then extract the candidate from the data *)
  match candidateData data with
  | Throw e => Abrupt e st
  | Ok data =>
      match getProp data "candidate" with
      | Throw e => Abrupt e st
      | Ok marker =>
          (* we have a null candidate, we have finished gathering candidates *)
          if negb (truthy marker) then continuation opts VUndefined [] st
          else continuation opts VUndefined [] (tryAddIceCandidate opts data st)
      end
  end.

Definition runTask (opts : Options) (task : Task) (st : State) : Completion :=
  match fn task with
  | ApplyCandidate => applyCandidate opts task st
  | ExecMethod => execMethod opts task st
  end.

(** The truthiness of [currentTask]: a task, or [null] / [undefined]. *)
Definition occupied (slot : option Task) : bool :=
  match slot with
  | Some _ => true
  | None => false
  end.

Definition checkQueue (opts : Options) (st : State) : Completion :=
  (* peek at the next item on the queue *)
  let next :=
    if negb (isEmpty (queue st)) && negb (occupied (currentTask st))
    then peek (queue st) else None in
  let ready :=
    match next with
    | Some t => testReady (pc st) t
    | None => false
    end in
  let retry := negb (isEmpty (queue st)) && isNotClosed (pc st) in
  (* if we don't have a task ready, then abort *)
  if negb ready then
    Normal (if retry then triggerQueueCheck (Some 100) st else st)
  else
    (* update the current task (dequeue) *)
    match deq (orderTasks (priorities opts) (pc st)) (queue st) with
    | None => Abrupt (VError "PriorityQueue is empty") st
    | Some (task, rest) =>
        let st := setCurrentTask (Some task) (setQueue rest st) in
        let st := log (Debug ("running " +:+ name task)) st in
        (* process the task *)
        runTask opts task st
    end.

(** The pending timeout expires: the timer is no longer pending and
    [checkQueue] runs. *)
Definition fireTimer (opts : Options) (st : State) : Completion :=
  match checkQueueTimer st with
  | Some _ => checkQueue opts (setTimer None st)
  | None => Normal st
  end.

(** ** Observations on a state *)

Definition isPcCall (e : Event) : bool :=
  match e with
  | PcCall _ _ => true
  | _ => false
  end.

(** The operations invoked on the managed resource so far. *)
Definition pcCalls (tr : list Event) : list Event := List.filter isPcCall tr.

Definition isFailureReport (e : Event) : bool :=
  match e with
  | ConsoleError _ => true
  | Emit ev _ => String.eqb ev "fail"
  | _ => false
  end.

(** What has been reported as a failure so far: [console.error] calls and
    ['fail'] events. *)
Definition failureReports (tr : list Event) : list Event :=
  List.filter isFailureReport tr.

Definition setPass (p : option Handler) (t : Task) : Task :=
  {| args := args t; name := name t; fn := fn t; checks := checks t;
     pass := p; fail := fail t |}.

(** The tasks pushed by the four other registered operations, for one
    argument list. *)
Definition otherRegisteredTasks (opts : Options) (arguments : list value) : list Task :=
  [ mkTask "setLocalDescription" ExecMethod reg_setLocalDescription arguments;
    mkTask "setRemoteDescription" ExecMethod (reg_setRemoteDescription opts) arguments;
    mkTask "createOffer" ExecMethod reg_createOffer arguments;
    mkTask "createAnswer" ExecMethod reg_createAnswer arguments ].

Definition initialState (p : PeerConnection) : State :=
  {| queue := []; currentTask := None; checkQueueTimer := None;
     pc := p; trace := [] |}.

(** ** The heap invariant *)

Definition heapOrdered {A : Type} (key : A -> Z) (l : list A) : Prop :=
  forall i x p, (0 < i)%nat -> l !! i = Some x -> l !! parentOf i = Some p ->
                key p <= key x.

(** The array is a heap everywhere but at [c], whose element may rank
    ahead of its ancestors; the children of [c] do not rank ahead of the
    parent of [c]. *)
Definition heapExcept {A : Type} (key : A -> Z) (l : list A) (c : nat) : Prop :=
  (forall i x p, (0 < i)%nat -> i <> c -> l !! i = Some x ->
                 l !! parentOf i = Some p -> key p <= key x) /\
  (forall i x g, (0 < i)%nat -> (0 < c)%nat -> parentOf i = c ->
                 l !! i = Some x -> l !! parentOf c = Some g -> key g <= key x).

(** The array is a heap but for the element at [c], which may rank behind
    its children; the children of [c] do not rank ahead of its parent. *)
Definition heapBelow {A : Type} (key : A -> Z) (l : list A) (c : nat) : Prop :=
  (forall i x p, (0 < i)%nat -> parentOf i <> c -> l !! i = Some x ->
                 l !! parentOf i = Some p -> key p <= key x) /\
  (forall i x g, (0 < i)%nat -> (0 < c)%nat -> parentOf i = c ->
                 l !! i = Some x -> l !! parentOf c = Some g -> key g <= key x).

(** [n] successive [deq] calls under one comparator. *)
Fixpoint drain {A : Type} (comparator : A -> A -> Z) (n : nat) (l : list A) : list A :=
  match n with
  | O => []
  | S n' =>
      match deq comparator l with
      | Some (first, rest) => first :: drain comparator n' rest
      | None => []
      end
  end.

(** ** Candidate payloads

    The words of the specification for what [applyCandidate] accepts: a raw
    candidate-like payload, or an event-like wrapper containing one; the
    payload signals the end of candidates by an empty or absent candidate
    marker. *)

Definition isNullish (v : value) : bool :=
  match v with
  | VUndefined | VNull => true
  | _ => false
  end.

(** The property [k] of a value that has properties. *)
Definition property (v : value) (k : string) : value :=
  match v with
  | VObj fields => assoc k fields
  | VError m => if String.eqb k "message" then VStr m else VUndefined
  | _ => VUndefined
  end.

Definition isEventWrapper (data : value) : bool :=
  truthy (property data "srcElement") && truthy (property data "candidate").

Definition payloadOf (data : value) : value :=
  if isEventWrapper data then property data "candidate" else data.

Definition candidateMarker (data : value) : value :=
  property (payloadOf data) "candidate".

(** The end-of-candidates sentinel: the payload of the first argument has
    an empty or absent candidate marker.  A first argument that is missing
    or [null] has no marker at all. *)
Definition endOfCandidates (data : value) : bool :=
  negb (truthy (candidateMarker data)).

(** The first argument is given and its payload carries a candidate. *)
Definition realCandidate (data : value) : bool :=
  negb (isNullish data) && truthy (candidateMarker data).

(** ** Sample inputs *)

Definition defaultOptions : Options :=
  {| opts_priorities := None;
     createIceCandidate := fun data => Ok data;
     createSessionDescription := fun data => Ok data |}.

(** A session description factory that accepts objects only. *)
Definition pickyOptions : Options :=
  {| opts_priorities := None;
     createIceCandidate := fun data => Ok data;
     createSessionDescription := fun data =>
       match data with
       | VObj _ => Ok data
       | _ => Throw (VError "not a description")
       end |}.

(** A factory that rejects every payload. *)
Definition strictOptions : Options :=
  {| opts_priorities := None;
     createIceCandidate := fun _ => Throw (VError "malformed candidate");
     createSessionDescription := fun data => Ok data |}.

Definition plainPc (state : string) : PeerConnection :=
  {| signalingState := state; localDescription := VNull;
     remoteDescription := VNull; hasMethod := fun _ => true;
     addIceCandidateRaises := fun _ => None |}.

Definition closedPc : PeerConnection := plainPc "closed".

Definition describedPc : PeerConnection :=
  {| signalingState := "stable"; localDescription := VObj [("type", VStr "offer")];
     remoteDescription := VNull; hasMethod := fun _ => true;
     addIceCandidateRaises := fun _ => None |}.

(** A resource without a [createOffer] function. *)
Definition legacyPc : PeerConnection :=
  {| signalingState := "stable"; localDescription := VNull;
     remoteDescription := VNull;
     hasMethod := fun nm => negb (String.eqb nm "createOffer");
     addIceCandidateRaises := fun _ => None |}.

Definition plainTask (nm : string) (cs : list (PeerConnection -> bool)) : Task :=
  {| args := []; name := nm; fn := ExecMethod; checks := cs;
     pass := None; fail := None |}.

Definition busyState (t : Task) (p : PeerConnection) : State :=
  {| queue := []; currentTask := Some t; checkQueueTimer := None;
     pc := p; trace := [] |}.

(** The resource after [setLocalDescription(offer)] has completed. *)
Definition negotiatingPc : PeerConnection :=
  {| signalingState := "have-local-offer";
     localDescription := VObj [("type", VStr "offer")];
     remoteDescription := VNull; hasMethod := fun _ => true;
     addIceCandidateRaises := fun _ => None |}.

Definition remoteCandidate : value :=
  VObj [("candidate", VStr "candidate:1 1 udp 1 192.0.2.1 9 typ host")].

(** A table of 1002 names whose last entry, at index 1001, is ["late"]. *)
Definition longTable : list string := (repeat "filler" 1001 ++ ["late"])%list.

(** A table of 101 names whose last entry, at index 100, is ["late"]. *)
Definition table101 : list string := (repeat "filler" 100 ++ ["late"])%list.

Definition remoteOffer : value :=
  VObj [("type", VStr "offer"); ("sdp", VStr "v=0")].

Definition offerTask : Task :=
  mkTask "createOffer" ExecMethod reg_createOffer [].

Definition garbledCandidate : Task :=
  mkTask "addIceCandidate" ApplyCandidate reg_addIceCandidate
    [VObj [("candidate", VStr "garbled")]].

Definition lastCandidate : Task :=
  mkTask "addIceCandidate" ApplyCandidate reg_addIceCandidate
    [VObj [("srcElement", VObj []); ("candidate", VNull)]].

(** ** The module in use

    What reaches the closure from outside: a call of one of the five
    operations patched into [tq], the pending timeout expiring, the resource
    answering the running task through [success] or through the failure
    callback (which is the continuation itself), and the resource changing
    its own properties. *)

Inductive Operation : Type :=
| AddIceCandidate
| SetLocalDescription
| SetRemoteDescription
| CreateOffer
| CreateAnswer.

Definition operationName (op : Operation) : string :=
  match op with
  | AddIceCandidate => "addIceCandidate"
  | SetLocalDescription => "setLocalDescription"
  | SetRemoteDescription => "setRemoteDescription"
  | CreateOffer => "createOffer"
  | CreateAnswer => "createAnswer"
  end.

Definition operationFn (op : Operation) : TaskFn :=
  match op with
  | AddIceCandidate => ApplyCandidate
  | _ => ExecMethod
  end.

Definition registration (opts : Options) (op : Operation) : EnqueueOpts :=
  match op with
  | AddIceCandidate => reg_addIceCandidate
  | SetLocalDescription => reg_setLocalDescription
  | SetRemoteDescription => reg_setRemoteDescription opts
  | CreateOffer => reg_createOffer
  | CreateAnswer => reg_createAnswer
  end.

(** [tq[name](...arguments)] *)
Definition callOperation (opts : Options) (op : Operation) :
    list value -> State -> Completion :=
  match op with
  | AddIceCandidate => tq_addIceCandidate opts
  | SetLocalDescription => tq_setLocalDescription opts
  | SetRemoteDescription => tq_setRemoteDescription opts
  | CreateOffer => tq_createOffer opts
  | CreateAnswer => tq_createAnswer opts
  end.

(** The task an operation pushes for an argument list (after
    [processArgs]). *)
Definition operationTask (opts : Options) (op : Operation)
    (arguments : list value) : Task :=
  mkTask (operationName op) (operationFn op) (registration opts op) arguments.

(** A task built by one of the five operations. *)
Definition registered (opts : Options) (t : Task) : Prop :=
  exists op arguments, t = operationTask opts op arguments.

(** The rank of each operation's task under [DEFAULT_PRIORITIES], when it
    is ready. *)
Definition defaultRank (op : Operation) : Z :=
  match op with
  | SetLocalDescription => 1
  | SetRemoteDescription => 2
  | CreateAnswer => 3
  | CreateOffer => 4
  | AddIceCandidate => PRIORITY_LOW
  end.

Inductive Input : Type :=
| Invoke (op : Operation) (arguments : list value)
| TimerFires
| ResourceSucceeds (results : list value)
| ResourceFails (err : value)
| ResourceChanges (p : PeerConnection).

Definition step (opts : Options) (i : Input) (st : State) : Completion :=
  match i with
  | Invoke op arguments => callOperation opts op arguments st
  | TimerFires => fireTimer opts st
  | ResourceSucceeds results => success opts results st
  | ResourceFails err => continuation opts err [] st
  | ResourceChanges p => Normal (setPc p st)
  end.

(** The closure after a sequence of inputs; an exception that escapes one
    of them leaves the variables as they were when it was thrown. *)
Definition run (opts : Options) (inputs : list Input) (st : State) : State :=
  fold_left (fun s i => stateOf (step opts i s)) inputs st.

(** [debug('queueing: ' + name, args)] *)
Definition isQueueing (e : Event) : bool :=
  match e with
  | Debug m => String.prefix "queueing: " m
  | _ => false
  end.

(** [debug('running ' + currentTask.name)] *)
Definition isRunning (e : Event) : bool :=
  match e with
  | Debug m => String.prefix "running " m
  | _ => false
  end.

Definition methodNames : list string :=
  [ "addIceCandidate"; "setLocalDescription"; "setRemoteDescription";
    "createOffer"; "createAnswer" ].

Definition callsOnly (names : list string) (e : Event) : Prop :=
  match e with
  | PcCall m _ => In m names
  | _ => True
  end.

(** What holds of the closure whatever has happened to it. *)
Definition wellFormed (opts : Options) (st : State) : Prop :=
  Forall (registered opts) (queue st) /\
  (forall t, currentTask st = Some t -> registered opts t) /\
  (checkQueueTimer st = None \/ checkQueueTimer st = Some 5 \/
   checkQueueTimer st = Some 100) /\
  length (List.filter isQueueing (trace st)) =
    (length (queue st) + length (List.filter isRunning (trace st)))%nat /\
  Forall (callsOnly methodNames) (trace st).

Definition wrappedCandidate : Task :=
  operationTask defaultOptions AddIceCandidate
    [VObj [("srcElement", VObj []); ("candidate", remoteCandidate)]].

Definition nullCandidate : Task :=
  operationTask defaultOptions AddIceCandidate [VNull].

Definition remoteOfferPc : PeerConnection :=
  {| signalingState := "have-remote-offer"; localDescription := VNull;
     remoteDescription := remoteOffer; hasMethod := fun _ => true;
     addIceCandidateRaises := fun _ => None |}.

(** The array after the elements of [l] have been enqueued, first to
    last, into an empty queue. *)
Definition enqAll {A : Type} (comparator : A -> A -> Z) (l : list A) : list A :=
  fold_left (enq comparator) l [].

(** The inputs that start and settle nothing: a call of an operation and a
    change of the resource. *)
Definition isQuiet (i : Input) : bool :=
  match i with
  | Invoke _ _ | ResourceChanges _ => true
  | _ => false
  end.

(** * Properties of the comparator *)

Lemma indexOfFrom_bounds (i : Z) (l : list string) (x : string) :
  indexOfFrom i l x = -1 \/ i <= indexOfFrom i l x < i + Z.of_nat (length l).
Proof.
  revert i. induction l as [|y rest IH]; intros i; simpl.
  - left. reflexivity.
  - destruct (String.eqb y x).
    + right. lia.
    + destruct (IH (i + 1)) as [H | H]; [left; exact H | right; lia].
Qed.

Lemma indexOf_bounds (l : list string) (x : string) :
  indexOf l x = -1 \/ 0 <= indexOf l x < Z.of_nat (length l).
Proof. unfold indexOf. destruct (indexOfFrom_bounds 0 l x); [left|right]; lia. Qed.

Lemma indexOfFrom_absent (i : Z) (l : list string) (x : string) :
  0 <= i -> (indexOfFrom i l x = -1 <-> ~ In x l).
Proof.
  revert i. induction l as [|y rest IH]; intros i Hi; simpl.
  - tauto.
  - destruct (String.eqb_spec y x) as [-> | Hne].
    + split; [lia | intros H; exfalso; apply H; left; reflexivity].
    + rewrite (IH (i + 1)) by lia. split.
      * intros H [Heq | Hin]; [exact (Hne Heq) | exact (H Hin)].
      * intros H Hin. apply H. right. exact Hin.
Qed.

Lemma indexOf_absent (l : list string) (x : string) :
  indexOf l x = -1 <-> ~ In x l.
Proof. apply indexOfFrom_absent. lia. Qed.

Lemma indexOf_listed (l : list string) (x : string) :
  In x l -> 0 <= indexOf l x < Z.of_nat (length l).
Proof.
  intros Hin. destruct (indexOf_bounds l x) as [H | H]; [|exact H].
  apply indexOf_absent in H. contradiction.
Qed.

Lemma rank_wait (prios : list string) (pc : PeerConnection) (t : Task) :
  testReady pc t = false -> rank prios pc t = PRIORITY_WAIT.
Proof. intros H. unfold rank, taskPriority. rewrite H. reflexivity. Qed.

Lemma rank_ready_listed (prios : list string) (pc : PeerConnection) (t : Task) :
  testReady pc t = true -> 0 <= indexOf prios (name t) ->
  rank prios pc t = indexOf prios (name t).
Proof.
  intros H Hi. unfold rank, taskPriority. rewrite H.
  destruct (Z.geb_spec (indexOf prios (name t)) 0); [reflexivity | lia].
Qed.

Lemma rank_ready_unlisted (prios : list string) (pc : PeerConnection) (t : Task) :
  testReady pc t = true -> indexOf prios (name t) = -1 ->
  rank prios pc t = PRIORITY_LOW.
Proof.
  intros H Hi. unfold rank, taskPriority. rewrite H, Hi. reflexivity.
Qed.

Lemma orderTasks_rank (prios : list string) (pc : PeerConnection) (a b : Task) :
  orderTasks prios pc a b = rank prios pc b - rank prios pc a.
Proof. reflexivity. Qed.

(** A ready task ranks below the wait rank as long as its name is not
    listed at position 1000 or later. *)
Lemma rank_ready_lt_wait (prios : list string) (pc : PeerConnection) (t : Task) :
  testReady pc t = true -> indexOf prios (name t) < PRIORITY_WAIT ->
  rank prios pc t < PRIORITY_WAIT.
Proof.
  intros H Hi. destruct (indexOf_bounds prios (name t)) as [Hm | Hb].
  - rewrite rank_ready_unlisted by assumption. reflexivity.
  - rewrite rank_ready_listed by (assumption || lia). exact Hi.
Qed.

(** * The heap under a fixed resource state

    While the resource state does not change, the comparator is the order of
    a key (the rank), and the array kept by [enq] is a heap for it: no
    element ranks ahead of its parent, and the head is ranked ahead of, or
    level with, every element. *)

Lemma parentOf_spec (i : nat) :
  (0 < i)%nat -> (2 * parentOf i + 1 <= i <= 2 * parentOf i + 2)%nat.
Proof.
  intros H. unfold parentOf.
  pose proof (Nat.div_mod_eq (i - 1) 2) as Hd.
  pose proof (Nat.mod_upper_bound (i - 1) 2) as Hm. lia.
Qed.

Lemma deq_peek {A : Type} (cmp : A -> A -> Z) (q : list A) (x : A) :
  peek q = Some x -> exists rest, deq cmp q = Some (x, rest).
Proof.
  destruct q as [|first tl]; [discriminate|].
  intros H. injection H as ->. unfold deq.
  destruct (length (removelast (x :: tl)) =? 0)%nat; eexists; reflexivity.
Qed.

Section HeapOrder.

Context {A : Type}.
Variable comparator : A -> A -> Z.
Variable key : A -> Z.
Hypothesis comparator_key : forall x y, comparator x y = key y - key x.

Lemma swap_length (l : list A) (a b : nat) :
  length (_swap l a b) = length l.
Proof.
  unfold _swap. destruct (l !! a), (l !! b); try reflexivity.
  rewrite !length_insert. reflexivity.
Qed.

Lemma swap_lookup (l : list A) (a b i : nat) :
  (a < length l)%nat -> (b < length l)%nat ->
  _swap l a b !! i =
    if decide (i = b) then l !! a
    else if decide (i = a) then l !! b
    else l !! i.
Proof.
  intros Ha Hb. unfold _swap.
  destruct (lookup_lt_is_Some_2 l a Ha) as [x Hx].
  destruct (lookup_lt_is_Some_2 l b Hb) as [y Hy].
  rewrite Hx, Hy.
  destruct (decide (i = b)) as [-> | Hib].
  - rewrite list_lookup_insert_eq by (rewrite length_insert; exact Hb).
    reflexivity.
  - rewrite list_lookup_insert_ne by congruence.
    destruct (decide (i = a)) as [-> | Hia].
    + rewrite list_lookup_insert_eq by exact Ha. reflexivity.
    + rewrite list_lookup_insert_ne by congruence. reflexivity.
Qed.

(** The loop of [enq] ends before the fuel does. *)
Lemma siftUp_fuel (fuel : nat) (l : list A) (c : nat) :
  (c < fuel)%nat ->
  siftUp comparator (S fuel) l c = siftUp comparator fuel l c.
Proof.
  revert l c. induction fuel as [|fuel IH]; intros l c Hc; [lia|].
  cbn [siftUp]. destruct (Nat.ltb_spec 0 c) as [H0 | H0]; [|reflexivity].
  destruct (_ <=? 0); [reflexivity|].
  pose proof (parentOf_spec c H0).
  rewrite <- (IH (_swap l (parentOf c) c) (parentOf c)) by lia. reflexivity.
Qed.

Lemma siftUp_heapOrdered (fuel : nat) (l : list A) (c : nat) :
  (c < fuel)%nat -> (c < length l)%nat -> heapExcept key l c ->
  heapOrdered key (siftUp comparator fuel l c).
Proof.
  revert l c. induction fuel as [|fuel IH]; intros l c Hfuel Hlen [Hex Hgr];
    [lia|].
  cbn [siftUp]. destruct (Nat.ltb_spec 0 c) as [Hc | Hc].
  2: { intros i x p Hi Hx Hp. apply (Hex i x p); (assumption || lia). }
  pose proof (parentOf_spec c Hc) as Hpar.
  assert (Hplen : (parentOf c < length l)%nat) by lia.
  destruct (lookup_lt_is_Some_2 l c Hlen) as [xc Hxc].
  destruct (lookup_lt_is_Some_2 l (parentOf c) Hplen) as [xp Hxp].
  unfold _compare. rewrite Hxc, Hxp, comparator_key.
  destruct (Z.leb_spec (key xp - key xc) 0) as [Hle | Hgt].
  - intros i x p Hi Hx Hp. destruct (decide (i = c)) as [-> | Hic].
    + rewrite Hxc in Hx. rewrite Hxp in Hp.
      injection Hx as <-. injection Hp as <-. lia.
    + apply (Hex i x p); assumption.
  - apply IH; [lia | rewrite swap_length; exact Hplen |].
    split.
    + intros i x p Hi Hne Hx Hp.
      rewrite swap_lookup in Hx, Hp by assumption.
      pose proof (parentOf_spec i Hi) as Hpi.
      destruct (decide (i = c)) as [-> | Hic].
      * destruct (decide (parentOf c = c)); [lia|].
        destruct (decide (parentOf c = parentOf c)); [|congruence].
        rewrite Hxp in Hx. rewrite Hxc in Hp.
        injection Hx as <-. injection Hp as <-. lia.
      * destruct (decide (i = parentOf c)); [congruence|].
        destruct (decide (parentOf i = c)) as [Hpc | Hpc].
        -- rewrite Hxp in Hp. injection Hp as <-.
           apply (Hgr i x xp); assumption.
        -- destruct (decide (parentOf i = parentOf c)) as [Hpp | Hpp].
           ++ rewrite Hxc in Hp. injection Hp as <-.
              assert (key xp <= key x).
              { apply (Hex i x xp); try assumption. rewrite Hpp. exact Hxp. }
              lia.
           ++ apply (Hex i x p); assumption.
    + intros i x g Hi Hpc0 Hpi Hx Hg.
      rewrite swap_lookup in Hx, Hg by assumption.
      pose proof (parentOf_spec (parentOf c) Hpc0) as Hpp.
      destruct (decide (parentOf (parentOf c) = c)); [lia|].
      destruct (decide (parentOf (parentOf c) = parentOf c)); [lia|].
      assert (Hgp : key g <= key xp).
      { apply (Hex (parentOf c) xp g); (assumption || lia). }
      destruct (decide (i = c)) as [-> | Hic].
      * rewrite Hxp in Hx. injection Hx as <-. exact Hgp.
      * destruct (decide (i = parentOf c)) as [-> | Hip].
        -- pose proof (parentOf_spec (parentOf c) Hi). lia.
        -- assert (key xp <= key x).
           { apply (Hex i x xp); try assumption. rewrite Hpi. exact Hxp. }
           lia.
Qed.

Lemma heapOrdered_nil : heapOrdered key [].
Proof. intros i x p _ Hx. rewrite lookup_nil in Hx. discriminate Hx. Qed.

(** [enq] keeps the array a heap. *)
Lemma enq_heapOrdered (l : list A) (x : A) :
  heapOrdered key l -> heapOrdered key (enq comparator l x).
Proof.
  intros Hl. unfold enq. rewrite length_app. simpl.
  apply siftUp_heapOrdered; [lia | rewrite length_app; simpl; lia |].
  replace (length l + 1 - 1)%nat with (length l) by lia.
  split.
  - intros i y p Hi Hne Hy Hp.
    assert (Hlt : (i < length l)%nat).
    { apply lookup_lt_Some in Hy. rewrite length_app in Hy. simpl in Hy. lia. }
    pose proof (parentOf_spec i Hi).
    rewrite lookup_app_l in Hy, Hp by lia.
    apply (Hl i y p); assumption.
  - intros i y g Hi Hc Hpi Hy _.
    apply lookup_lt_Some in Hy. rewrite length_app in Hy. simpl in Hy.
    pose proof (parentOf_spec i Hi). lia.
Qed.

(** The head of a heap is ranked ahead of, or level with, every element. *)
Lemma heapOrdered_head (l : list A) (h : A) :
  heapOrdered key l -> l !! 0%nat = Some h ->
  forall i x, l !! i = Some x -> key h <= key x.
Proof.
  intros Hl Hh i. induction i as [i IH] using lt_wf_ind. intros x Hx.
  destruct (Nat.eq_dec i 0) as [-> | Hne].
  - rewrite Hh in Hx. injection Hx as <-. lia.
  - assert (Hi : (0 < i)%nat) by lia.
    pose proof (parentOf_spec i Hi) as Hp.
    assert (Hplen : (parentOf i < length l)%nat).
    { apply lookup_lt_Some in Hx. lia. }
    destruct (lookup_lt_is_Some_2 l (parentOf i) Hplen) as [p Hpx].
    assert (key h <= key p) by (apply (IH (parentOf i)); [lia | exact Hpx]).
    assert (key p <= key x) by (apply (Hl i x p); assumption).
    lia.
Qed.

(** Sifting moves elements, it neither adds nor drops one. *)
Lemma swap_elem_of (l : list A) (a b : nat) (z : A) :
  z ∈ _swap l a b <-> z ∈ l.
Proof.
  unfold _swap. destruct (l !! a) as [x|] eqn:Hx; [|reflexivity].
  destruct (l !! b) as [y|] eqn:Hy; [|reflexivity].
  assert (Ha : (a < length l)%nat) by (eapply lookup_lt_Some; exact Hx).
  assert (Hb : (b < length l)%nat) by (eapply lookup_lt_Some; exact Hy).
  pose proof (swap_lookup l a b) as Hs. unfold _swap in Hs.
  rewrite Hx, Hy in Hs.
  rewrite !list_elem_of_lookup. split; intros [i Hi].
  - rewrite Hs in Hi by assumption.
    destruct (decide (i = b)); [exists a; congruence|].
    destruct (decide (i = a)); [exists b; congruence|].
    exists i. exact Hi.
  - destruct (decide (i = a)) as [-> | Hia].
    + exists b. rewrite Hs by assumption.
      destruct (decide (b = b)); congruence.
    + destruct (decide (i = b)) as [-> | Hib].
      * exists a. rewrite Hs by assumption.
        destruct (decide (a = b)); [congruence|].
        destruct (decide (a = a)); congruence.
      * exists i. rewrite Hs by assumption.
        destruct (decide (i = b)); [congruence|].
        destruct (decide (i = a)); congruence.
Qed.

Lemma siftUp_elem_of (fuel : nat) (l : list A) (c : nat) (z : A) :
  z ∈ siftUp comparator fuel l c <-> z ∈ l.
Proof.
  revert l c. induction fuel as [|fuel IH]; intros l c; simpl; [reflexivity|].
  destruct (0 <? c)%nat; [|reflexivity].
  destruct (_ <=? 0); [reflexivity|].
  rewrite IH. apply swap_elem_of.
Qed.

Lemma enq_elem_of (l : list A) (x z : A) :
  z ∈ enq comparator l x <-> z = x \/ z ∈ l.
Proof.
  unfold enq. rewrite siftUp_elem_of, elem_of_app, list_elem_of_singleton.
  tauto.
Qed.

End HeapOrder.

Section HeapDeq.

Context {A : Type}.
Variable comparator : A -> A -> Z.
Variable key : A -> Z.
Hypothesis comparator_key : forall x y, comparator x y = key y - key x.

Lemma compare_geb (l : list A) (i j : nat) (x y : A) :
  l !! i = Some x -> l !! j = Some y ->
  (_compare comparator l i j >=? 0) = (key x <=? key y).
Proof.
  intros Hi Hj. unfold _compare. rewrite Hi, Hj, comparator_key.
  destruct (Z.geb_spec (key y - key x) 0), (Z.leb_spec (key x) (key y));
    (reflexivity || lia).
Qed.

(** The loop of [deq] ends before the fuel does. *)
Lemma siftDown_fuel (fuel : nat) (l : list A) (c : nat) :
  (length l <= fuel + c)%nat ->
  siftDown comparator (S fuel) l c = siftDown comparator fuel l c.
Proof.
  revert l c. induction fuel as [|fuel IH]; intros l c Hc.
  - cbn [siftDown]. destruct (Nat.ltb_spec c (length l)); [lia | reflexivity].
  - remember (S fuel) as f eqn:Hf. cbn [siftDown]. subst f.
    destruct (Nat.ltb_spec c (length l)) as [H | H].
    2: { cbn [siftDown]. destruct (Nat.ltb_spec c (length l)); [lia | reflexivity]. }
    cbn [siftDown]. destruct (Nat.ltb_spec c (length l)); [|lia].
    set (largest := if (2 * c + 2 <? length l)%nat && _ then _ else _).
    destruct (Nat.eqb_spec largest c) as [He | Hne]; [reflexivity|].
    assert (Hl : (c < largest)%nat).
    { subst largest.
      destruct ((2 * c + 2 <? length l)%nat && _); [lia|].
      destruct ((2 * c + 1 <? length l)%nat && _); [lia|].
      contradiction Hne. reflexivity. }
    apply IH. rewrite swap_length. lia.
Qed.

Lemma siftDown_heapOrdered (fuel : nat) (l : list A) (c : nat) :
  (length l <= fuel + c)%nat -> heapBelow key l c ->
  heapOrdered key (siftDown comparator fuel l c).
Proof.
  revert l c. induction fuel as [|fuel IH]; intros l c Hfuel [H1 H2].
  - simpl. intros i x p Hi Hx Hp. apply (H1 i x p); try assumption.
    apply lookup_lt_Some in Hx. pose proof (parentOf_spec i Hi). lia.
  - cbn [siftDown]. destruct (Nat.ltb_spec c (length l)) as [Hc | Hc].
    2: { intros i x p Hi Hx Hp. apply (H1 i x p); try assumption.
         apply lookup_lt_Some in Hx. pose proof (parentOf_spec i Hi). lia. }
    destruct (lookup_lt_is_Some_2 l c Hc) as [xc Hxc].
    set (left := (2 * c + 1)%nat). set (right := (2 * c + 2)%nat).
    set (largest1 := if (left <? length l)%nat &&
                        (_compare comparator l left c >=? 0)
                     then left else c).
    set (largest2 := if (right <? length l)%nat &&
                        (_compare comparator l right largest1 >=? 0)
                     then right else largest1).
    (* what the two tests establish about the chosen position *)
    assert (Hchoice :
      exists xm, l !! largest2 = Some xm /\ key xm <= key xc /\
        (largest2 = c \/ largest2 = left \/ largest2 = right) /\
        (forall i x, (i = left \/ i = right) -> i <> largest2 ->
                     l !! i = Some x ->
                     if decide (largest2 = c) then key xc < key x
                     else key xm <= key x)).
    { subst largest2 largest1.
      destruct (Nat.ltb_spec left (length l)) as [Hl | Hl]; cbn [andb].
      - destruct (lookup_lt_is_Some_2 l left Hl) as [xl Hxl].
        rewrite (compare_geb l left c xl xc Hxl Hxc).
        destruct (Z.leb_spec (key xl) (key xc)) as [Hlc | Hlc].
        + destruct (Nat.ltb_spec right (length l)) as [Hr | Hr]; cbn [andb].
          * destruct (lookup_lt_is_Some_2 l right Hr) as [xr Hxr].
            rewrite (compare_geb l right left xr xl Hxr Hxl).
            destruct (Z.leb_spec (key xr) (key xl)) as [Hrl | Hrl].
            -- exists xr. split; [exact Hxr|]. split; [lia|].
               split; [auto|]. intros i x [-> | ->] Hne Hx; [|congruence].
               destruct (decide (right = c)); [subst left right; lia|].
               rewrite Hxl in Hx. injection Hx as <-. exact Hrl.
            -- exists xl. split; [exact Hxl|]. split; [lia|].
               split; [auto|]. intros i x [-> | ->] Hne Hx; [congruence|].
               destruct (decide (left = c)); [subst left; lia|].
               rewrite Hxr in Hx. injection Hx as <-. lia.
          * exists xl. split; [exact Hxl|]. split; [lia|].
            split; [auto|]. intros i x [-> | ->] Hne Hx; [congruence|].
            apply lookup_lt_Some in Hx. lia.
        + destruct (Nat.ltb_spec right (length l)) as [Hr | Hr]; cbn [andb].
          * destruct (lookup_lt_is_Some_2 l right Hr) as [xr Hxr].
            rewrite (compare_geb l right c xr xc Hxr Hxc).
            destruct (Z.leb_spec (key xr) (key xc)) as [Hrc | Hrc].
            -- exists xr. split; [exact Hxr|]. split; [lia|].
               split; [auto|]. intros i x [-> | ->] Hne Hx; [|congruence].
               destruct (decide (right = c)); [subst left right; lia|].
               rewrite Hxl in Hx. injection Hx as <-. lia.
            -- exists xc. split; [exact Hxc|]. split; [lia|].
               split; [auto|]. intros i x Hi Hne Hx.
               destruct (decide (c = c)); [|congruence].
               destruct Hi as [-> | ->].
               ++ rewrite Hxl in Hx. injection Hx as <-. exact Hlc.
               ++ rewrite Hxr in Hx. injection Hx as <-. exact Hrc.
          * exists xc. split; [exact Hxc|]. split; [lia|].
            split; [auto|]. intros i x Hi Hne Hx.
            destruct (decide (c = c)); [|congruence].
            destruct Hi as [-> | ->].
            ++ rewrite Hxl in Hx. injection Hx as <-. exact Hlc.
            ++ apply lookup_lt_Some in Hx. lia.
      - assert (Hr : (length l <= right)%nat) by (subst left right; lia).
        destruct (Nat.ltb_spec right (length l)); [lia|]. cbn [andb].
        exists xc. split; [exact Hxc|]. split; [lia|].
        split; [auto|]. intros i x Hi Hne Hx.
        apply lookup_lt_Some in Hx. destruct Hi as [-> | ->]; lia. }
    clearbody largest2. clear largest1.
    destruct Hchoice as (xm & Hxm & Hmc & Hwhich & Hother).
    destruct (Nat.eqb_spec largest2 c) as [Heq | Hne].
    + (* nothing to move: the array is a heap *)
      intros i x p Hi Hx Hp.
      destruct (decide (parentOf i = c)) as [Hpc | Hpc].
      * pose proof (parentOf_spec i Hi) as Hs.
        assert (Hi' : i = left \/ i = right) by (subst left right; lia).
        specialize (Hother i x Hi').
        destruct (decide (largest2 = c)); [|contradiction].
        rewrite Hpc, Hxc in Hp. injection Hp as <-.
        assert (i <> largest2) by lia. specialize (Hother H Hx). lia.
      * apply (H1 i x p); assumption.
    + assert (Hm : largest2 = left \/ largest2 = right) by tauto.
      assert (Hmlen : (largest2 < length l)%nat)
        by (eapply lookup_lt_Some; exact Hxm).
      assert (Hpm : parentOf largest2 = c).
      { assert (0 < largest2)%nat by (subst left right; lia).
        pose proof (parentOf_spec largest2 H). subst left right. lia. }
      apply IH; [rewrite swap_length; subst left right; lia|].
      split.
      * intros i x p Hi Hpi Hx Hp.
        rewrite swap_lookup in Hx, Hp by assumption.
        pose proof (parentOf_spec i Hi) as Hs.
        destruct (decide (parentOf i = c)) as [Hpc | Hpc].
        -- assert (Hi' : i = left \/ i = right) by (subst left right; lia).
           destruct (decide (parentOf i = c)); [|contradiction].
           rewrite Hxm in Hp. injection Hp as <-.
           destruct (decide (i = c)); [lia|].
           destruct (decide (i = largest2)) as [-> | Him].
           ++ rewrite Hxc in Hx. injection Hx as <-. exact Hmc.
           ++ specialize (Hother i x Hi' Him Hx).
              destruct (decide (largest2 = c)); [contradiction | exact Hother].
        -- destruct (decide (parentOf i = c)); [contradiction|].
           destruct (decide (parentOf i = largest2)); [contradiction|].
           destruct (decide (i = c)) as [-> | Hic].
           ++ rewrite Hxm in Hx. injection Hx as <-.
              apply (H2 largest2 xm p); try assumption; lia.
           ++ destruct (decide (i = largest2)) as [-> | Him]; [contradiction|].
              apply (H1 i x p); assumption.
      * intros i x g Hi Hm0 Hpi Hx Hg.
        rewrite swap_lookup in Hx, Hg by assumption.
        pose proof (parentOf_spec i Hi) as Hs.
        rewrite Hpm in Hg.
        destruct (decide (c = c)); [|congruence].
        rewrite Hxm in Hg. injection Hg as <-.
        destruct (decide (i = c)); [subst left right; lia|].
        destruct (decide (i = largest2)); [lia|].
        apply (H1 i x xm); try assumption; [lia | rewrite Hpi; exact Hxm].
Qed.

End HeapDeq.

Section HeapDrain.

Context {A : Type}.
Variable comparator : A -> A -> Z.
Variable key : A -> Z.
Hypothesis comparator_key : forall x y, comparator x y = key y - key x.

Lemma siftDown_elem_of (fuel : nat) (l : list A) (c : nat) (z : A) :
  z ∈ siftDown comparator fuel l c <-> z ∈ l.
Proof.
  revert l c. induction fuel as [|fuel IH]; intros l c; cbn [siftDown];
    [reflexivity|].
  destruct (c <? length l)%nat; [|reflexivity].
  destruct (_ =? c)%nat; [reflexivity|].
  rewrite IH. apply swap_elem_of.
Qed.

Lemma siftDown_length (fuel : nat) (l : list A) (c : nat) :
  length (siftDown comparator fuel l c) = length l.
Proof.
  revert l c. induction fuel as [|fuel IH]; intros l c; cbn [siftDown];
    [reflexivity|].
  destruct (c <? length l)%nat; [|reflexivity].
  destruct (_ =? c)%nat; [reflexivity|].
  rewrite IH. apply swap_length.
Qed.

#[local] Opaque siftDown.

(** [deq] on a non-empty array: the head comes out; the last element
    takes its place and is sifted down. *)
Lemma deq_cases (first : A) (tl : list A) :
  (tl = [] /\ deq comparator (first :: tl) = Some (first, [])) \/
  (exists tl' lst, tl = (tl' ++ [lst])%list /\
     deq comparator (first :: tl) =
       Some (first, siftDown comparator (S (length tl')) (lst :: tl') 0)).
Proof.
  destruct tl as [|y tl0]; [left; split; reflexivity|].
  right. destruct (exists_last (l := y :: tl0)) as (tl' & lst & Heq);
    [discriminate|].
  exists tl', lst. split; [exact Heq|]. rewrite Heq. unfold deq.
  change (first :: (tl' ++ [lst])%list) with ((first :: tl') ++ [lst])%list.
  rewrite last_last, removelast_last. reflexivity.
Qed.

Lemma deq_length (l rest : list A) (h : A) :
  deq comparator l = Some (h, rest) -> length l = S (length rest).
Proof.
  destruct l as [|first tl]; [discriminate|].
  destruct (deq_cases first tl) as [[-> H] | (tl' & lst & -> & H)];
    rewrite H; intros Heq; injection Heq as <- <-.
  - reflexivity.
  - rewrite siftDown_length. simpl. rewrite length_app. simpl. lia.
Qed.

Lemma deq_elem_of (l rest : list A) (h z : A) :
  deq comparator l = Some (h, rest) -> z ∈ l <-> z = h \/ z ∈ rest.
Proof.
  destruct l as [|first tl]; [discriminate|].
  destruct (deq_cases first tl) as [[-> H] | (tl' & lst & -> & H)];
    rewrite H; intros Heq; injection Heq as <- <-.
  - rewrite list_elem_of_singleton, elem_of_nil. tauto.
  - rewrite siftDown_elem_of, !elem_of_cons, elem_of_app,
      list_elem_of_singleton. tauto.
Qed.

Lemma deq_head (l rest : list A) (h : A) :
  deq comparator l = Some (h, rest) -> l !! 0%nat = Some h.
Proof.
  destruct l as [|first tl]; [discriminate|]. unfold deq.
  destruct (_ =? 0)%nat; intros Heq; injection Heq as <- _; reflexivity.
Qed.

(** [deq] keeps the array a heap. *)
Lemma deq_heapOrdered (l rest : list A) (h : A) :
  heapOrdered key l -> deq comparator l = Some (h, rest) ->
  heapOrdered key rest.
Proof.
  intros Hl. destruct l as [|first tl]; [discriminate|].
  destruct (deq_cases first tl) as [[-> H] | (tl' & lst & -> & H)];
    rewrite H; intros Heq; injection Heq as <- <-.
  - apply heapOrdered_nil.
  - apply (siftDown_heapOrdered comparator key comparator_key);
      [simpl; lia|].
    split; [|intros; lia].
    intros i x p Hi Hpi Hx Hp.
    pose proof (parentOf_spec i Hi) as Hs.
    assert (Hp0 : (0 < parentOf i)%nat) by lia.
    destruct i as [|k]; [lia|].
    destruct (parentOf (S k)) as [|k'] eqn:Hk; [lia|].
    simpl in Hx, Hp.
    apply (Hl (S k) x p); [lia | |].
    + simpl. apply lookup_app_l_Some. exact Hx.
    + rewrite Hk. simpl. apply lookup_app_l_Some. exact Hp.
Qed.

Lemma drain_subset (n : nat) (l : list A) (z : A) :
  z ∈ drain comparator n l -> z ∈ l.
Proof.
  revert l. induction n as [|n IH]; intros l; simpl.
  - intros H. apply elem_of_nil in H. contradiction.
  - destruct (deq comparator l) as [[h rest]|] eqn:Hd.
    + rewrite elem_of_cons, (deq_elem_of l rest h z Hd).
      intros [-> | H]; [left; reflexivity | right; apply IH; exact H].
    + intros H. apply elem_of_nil in H. contradiction.
Qed.

Lemma drain_complete (n : nat) (l : list A) (z : A) :
  (length l <= n)%nat -> z ∈ l -> z ∈ drain comparator n l.
Proof.
  revert l. induction n as [|n IH]; intros l Hlen Hz.
  - destruct l; [apply elem_of_nil in Hz; contradiction | simpl in Hlen; lia].
  - simpl. destruct l as [|first tl]; [apply elem_of_nil in Hz; contradiction|].
    destruct (deq_peek comparator (first :: tl) first eq_refl) as [rest Hd].
    rewrite Hd. apply (deq_elem_of _ _ _ z) in Hd as He.
    apply deq_length in Hd. simpl in Hd, Hlen.
    apply He in Hz. rewrite elem_of_cons.
    destruct Hz as [-> | Hz]; [left; reflexivity|].
    right. apply IH; [lia | exact Hz].
Qed.

(** Elements come out of a heap in the order of their keys. *)
Lemma drain_ordered (n : nat) (l l1 l2 : list A) (a : A) :
  heapOrdered key l -> drain comparator n l = (l1 ++ a :: l2)%list ->
  forall z, z ∈ l1 -> key z <= key a.
Proof.
  revert l l1. induction n as [|n IH]; intros l l1 Hl Hd z Hz; simpl in Hd.
  - destruct l1; discriminate Hd.
  - destruct (deq comparator l) as [[h rest]|] eqn:Hq;
      [|destruct l1; discriminate Hd].
    destruct l1 as [|y l1']; [apply elem_of_nil in Hz; contradiction|].
    simpl in Hd. injection Hd as <- Hd.
    apply elem_of_cons in Hz. destruct Hz as [-> | Hz].
    + assert (Ha : a ∈ l).
      { apply (deq_elem_of l rest h a Hq). right.
        apply (drain_subset n). rewrite Hd.
        apply elem_of_app. right. left. }
      apply list_elem_of_lookup in Ha. destruct Ha as [i Hi].
      apply (heapOrdered_head key l h Hl (deq_head l rest h Hq) i a Hi).
    + apply (IH rest l1'); [eapply deq_heapOrdered; eassumption | exact Hd | exact Hz].
Qed.

(** Dequeuing a heap to the end yields [a] before [b] whenever [a] has
    the lower key. *)
Lemma drain_before (l : list A) (a b : A) :
  heapOrdered key l -> a ∈ l -> b ∈ l -> key a < key b ->
  exists l1 l2,
    drain comparator (length l) l = (l1 ++ a :: l2)%list /\
    (b ∉ l1) /\ (b ∈ l2).
Proof.
  intros Hl Ha Hb Hlt.
  pose proof (drain_complete (length l) l a (le_n _) Ha) as Hda.
  pose proof (drain_complete (length l) l b (le_n _) Hb) as Hdb.
  apply list_elem_of_split in Hda. destruct Hda as (l1 & l2 & Heq).
  exists l1, l2. split; [exact Heq|].
  assert (Hn1 : b ∉ l1).
  { intros Hin. pose proof (drain_ordered _ l l1 l2 a Hl Heq b Hin). lia. }
  split; [exact Hn1|].
  rewrite Heq in Hdb. apply elem_of_app in Hdb.
  destruct Hdb as [Hdb | Hdb]; [contradiction|].
  apply elem_of_cons in Hdb. destruct Hdb as [-> | Hdb]; [lia | exact Hdb].
Qed.

#[local] Transparent siftDown.

End HeapDrain.

(** * Two tasks in the queue *)

Section TwoElements.

Context {A : Type}.
Variable comparator : A -> A -> Z.

Lemma enq_empty (x : A) : enq comparator [] x = [x].
Proof. reflexivity. Qed.

Lemma enq_second_behind (x y : A) :
  comparator y x <= 0 -> enq comparator [x] y = [x; y].
Proof.
  intros H. unfold enq. simpl. unfold _compare. simpl.
  destruct (Z.leb_spec (comparator y x) 0); [reflexivity | lia].
Qed.

Lemma enq_second_ahead (x y : A) :
  0 < comparator y x -> enq comparator [x] y = [y; x].
Proof.
  intros H. unfold enq. simpl. unfold _compare. simpl.
  destruct (Z.leb_spec (comparator y x) 0); [lia | reflexivity].
Qed.

Lemma deq_pair (x y : A) : deq comparator [x; y] = Some (x, [y]).
Proof. reflexivity. Qed.

End TwoElements.

(** * Claims about the comparator *)

(** C1, as stated, fails: with a priority table of more than 1000 names a
    ready task named at index 1001 gets rank 1001, worse than the wait rank
    1000 of a task that is not ready; the comparator puts the unready task
    ahead, and in the queue holding the two the unready task is at the
    head. *)
Lemma C1_counterexample :
  let pcx := plainPc "closed" in
  let a := plainTask "late" [] in
  let b := plainTask "createOffer" [isNotClosed] in
  testReady pcx a = true /\ testReady pcx b = false /\
  orderTasks longTable pcx a b = -1 /\
  ~ (0 < orderTasks longTable pcx a b) /\
  peek (enq (orderTasks longTable pcx) (enq (orderTasks longTable pcx) [] b) a) = Some b.
Proof. vm_compute. repeat split; try reflexivity. intros H; discriminate H. Qed.

(** While the resource state stands still, every operation of the queue
    keeps the array a heap for the ranks computed from that state. *)
Lemma queue_heap_invariant (prios : list string) (pc : PeerConnection) :
  let cmp := orderTasks prios pc in
  heapOrdered (rank prios pc) [] /\
  (forall q t, heapOrdered (rank prios pc) q ->
               heapOrdered (rank prios pc) (enq cmp q t)) /\
  (forall q t rest, heapOrdered (rank prios pc) q -> deq cmp q = Some (t, rest) ->
                    heapOrdered (rank prios pc) rest).
Proof.
  cbv zeta. split; [apply heapOrdered_nil|]. split.
  - intros q t Hq. apply enq_heapOrdered; [apply orderTasks_rank | exact Hq].
  - intros q t rest Hq Hd.
    apply (deq_heapOrdered (orderTasks prios pc) (rank prios pc)
             (orderTasks_rank prios pc) q rest t Hq Hd).
Qed.

(** The comparator is consulted when a task is sifted, not when the head
    is read.  A createOffer task and a candidate are enqueued while
    setLocalDescription runs; once the offer is set the candidate is ready
    and the createOffer task is not, the comparator ranks the candidate
    ahead, yet the head of the array is still the createOffer task: the
    poll finds it unready and re-arms the retry, and the ready candidate
    waits behind it. *)
Lemma stale_head_blocks_ready_task :
  let running := mkTask "setLocalDescription" ExecMethod reg_setLocalDescription [] in
  let offer := mkTask "createOffer" ExecMethod reg_createOffer [] in
  let candidate :=
    mkTask "addIceCandidate" ApplyCandidate reg_addIceCandidate [remoteCandidate] in
  let st1 := stateOf (tq_createOffer defaultOptions []
                        (busyState running (plainPc "stable"))) in
  let st2 := stateOf (tq_addIceCandidate defaultOptions [remoteCandidate] st1) in
  let st3 := stateOf (success defaultOptions [] (setPc negotiatingPc st2)) in
  let st4 := stateOf (fireTimer defaultOptions st3) in
  queue st3 = [offer; candidate] /\ currentTask st3 = None /\
  testReady (pc st3) candidate = true /\ testReady (pc st3) offer = false /\
  0 < orderTasks DEFAULT_PRIORITIES (pc st3) candidate offer /\
  queue st4 = [offer; candidate] /\ currentTask st4 = None /\
  checkQueueTimer st4 = Some 100 /\
  pcCalls (trace st4) = [] /\
  fireTimer defaultOptions st4 = Normal st4.
Proof. cbv zeta. repeat split; reflexivity. Qed.

(** C1 (amended): for two tasks evaluated against the same resource state,
    A ready and B not ready, and any priority table in which A's name is
    absent or listed at an index below 1000, the comparator ranks A strictly
    ahead of B whatever their static priorities ([orderTasks a b] is
    positive, [orderTasks b a] negative).  Hence, in a queue holding both
    whose heap was built under that state, the task a poll would dequeue is
    a ready one (so not B), and dequeuing the queue to the end under that
    state yields A before B; with just the two queued, whichever was
    enqueued first, A is dequeued first. *)
Theorem C1_ready_before_unready (prios : list string) (pc : PeerConnection) (a b : Task) :
  testReady pc a = true ->
  testReady pc b = false ->
  indexOf prios (name a) < PRIORITY_WAIT ->
  let cmp := orderTasks prios pc in
  0 < cmp a b /\ cmp b a < 0 /\
  (forall q, heapOrdered (rank prios pc) q -> a ∈ q -> b ∈ q ->
     (exists h rest, deq cmp q = Some (h, rest) /\ testReady pc h = true) /\
     (exists l1 l2, drain cmp (length q) q = (l1 ++ a :: l2)%list /\
                    (b ∉ l1) /\ (b ∈ l2))) /\
  deq cmp (enq cmp (enq cmp [] a) b) = Some (a, [b]) /\
  deq cmp (enq cmp (enq cmp [] b) a) = Some (a, [b]).
Proof.
  intros Ha Hb Hidx cmp.
  assert (Hra : rank prios pc a < PRIORITY_WAIT) by (apply rank_ready_lt_wait; assumption).
  assert (Hrb : rank prios pc b = PRIORITY_WAIT) by (apply rank_wait; assumption).
  assert (Hab : 0 < cmp a b) by (unfold cmp; rewrite orderTasks_rank; lia).
  assert (Hba : cmp b a < 0) by (unfold cmp; rewrite orderTasks_rank; lia).
  split; [exact Hab|]. split; [exact Hba|]. split; [|split].
  - intros q Hq Hain Hbin. split.
    + destruct q as [|h tl]; [apply elem_of_nil in Hain; contradiction|].
      destruct (deq_peek cmp (h :: tl) h eq_refl) as [rest Hd].
      exists h, rest. split; [exact Hd|].
      apply list_elem_of_lookup in Hain. destruct Hain as [i Hi].
      pose proof (heapOrdered_head (rank prios pc) (h :: tl) h Hq eq_refl i a Hi) as Hh.
      destruct (testReady pc h) eqn:Hr; [reflexivity|].
      rewrite (rank_wait prios pc h Hr) in Hh. lia.
    + apply (drain_before cmp (rank prios pc) (orderTasks_rank prios pc));
        (assumption || lia).
  - rewrite enq_empty, enq_second_behind by lia. apply deq_pair.
  - rewrite enq_empty, enq_second_ahead by lia. apply deq_pair.
Qed.

Lemma C1_ready_before_unready_witness :
  let pcx := plainPc "closed" in
  let a := plainTask "createOffer" [] in
  let b := plainTask "candidate" [isNotClosed] in
  let cmp := orderTasks DEFAULT_PRIORITIES pcx in
  0 < cmp a b /\ cmp b a < 0 /\
  deq cmp (enq cmp (enq cmp [] b) a) = Some (a, [b]).
Proof.
  destruct (C1_ready_before_unready DEFAULT_PRIORITIES (plainPc "closed")
              (plainTask "createOffer" []) (plainTask "candidate" [isNotClosed])
              eq_refl eq_refl eq_refl) as (H1 & H2 & _ & _ & H3).
  repeat split; assumption.
Defined.

(** C8, as stated, fails: with a priority table of more than 100 names a
    ready task listed at index 100 has rank 100, the very rank of a ready
    task whose name is absent, so the unlisted task is not strictly worse
    than every listed one. *)
Lemma C8_counterexample :
  let pcx := plainPc "stable" in
  let t := plainTask "unlisted" [] in
  let u := plainTask "late" [] in
  testReady pcx t = true /\ ~ In (name t) table101 /\
  testReady pcx u = true /\ In (name u) table101 /\
  ~ (rank table101 pcx u < rank table101 pcx t).
Proof.
  cbv zeta. split; [reflexivity|]. split.
  - apply indexOf_absent. vm_compute. reflexivity.
  - split; [reflexivity|]. split.
    + unfold table101. apply in_or_app. right. left. reflexivity.
    + vm_compute. intros H. discriminate H.
Qed.

(** C8 (amended): for every priority table and every ready task whose name
    is absent from the table, the task's rank is the default rank 100; it is
    strictly lower than the wait rank of any task that is not ready, and
    strictly higher than the rank of every ready task whose name is listed
    in the table at an index below 100 (every listed name, when the table has
    at most 100 entries). *)
Theorem C8_default_rank (prios : list string) (pc : PeerConnection) (t : Task) :
  testReady pc t = true ->
  ~ In (name t) prios ->
  rank prios pc t = PRIORITY_LOW /\
  (forall u, testReady pc u = false -> rank prios pc t < rank prios pc u) /\
  (forall u, testReady pc u = true -> In (name u) prios ->
             indexOf prios (name u) < PRIORITY_LOW ->
             rank prios pc u < rank prios pc t) /\
  (Z.of_nat (length prios) <= PRIORITY_LOW ->
   forall u, testReady pc u = true -> In (name u) prios ->
             rank prios pc u < rank prios pc t).
Proof.
  intros Hready Habsent.
  assert (Hrt : rank prios pc t = PRIORITY_LOW).
  { apply rank_ready_unlisted; [exact Hready | apply indexOf_absent; exact Habsent]. }
  rewrite Hrt. split; [reflexivity|]. split; [|split].
  - intros u Hu. rewrite (rank_wait prios pc u Hu). reflexivity.
  - intros u Hu Hin Hlt. pose proof (indexOf_listed prios (name u) Hin) as Hb.
    rewrite rank_ready_listed by (assumption || lia). exact Hlt.
  - intros Hlen u Hu Hin. pose proof (indexOf_listed prios (name u) Hin) as Hb.
    rewrite rank_ready_listed by (assumption || lia). lia.
Qed.

Lemma C8_default_rank_witness :
  let pcx := plainPc "stable" in
  let t := plainTask "addIceCandidate" [] in
  rank DEFAULT_PRIORITIES pcx t = PRIORITY_LOW /\
  (forall u, testReady pcx u = false ->
             rank DEFAULT_PRIORITIES pcx t < rank DEFAULT_PRIORITIES pcx u) /\
  (forall u, testReady pcx u = true -> In (name u) DEFAULT_PRIORITIES ->
             indexOf DEFAULT_PRIORITIES (name u) < PRIORITY_LOW ->
             rank DEFAULT_PRIORITIES pcx u < rank DEFAULT_PRIORITIES pcx t) /\
  (Z.of_nat (length DEFAULT_PRIORITIES) <= PRIORITY_LOW ->
   forall u, testReady pcx u = true -> In (name u) DEFAULT_PRIORITIES ->
             rank DEFAULT_PRIORITIES pcx u < rank DEFAULT_PRIORITIES pcx t).
Proof.
  apply (C8_default_rank DEFAULT_PRIORITIES (plainPc "stable")
           (plainTask "addIceCandidate" [])).
  - reflexivity.
  - apply indexOf_absent. reflexivity.
Defined.

(** C10: the comparator is antisymmetric: for all tasks a and b evaluated
    against the same resource state, [orderTasks a b] is the negation of
    [orderTasks b a], and [orderTasks a a] is 0. *)
Theorem C10_orderTasks_antisymmetric (prios : list string) (pc : PeerConnection) (a b : Task) :
  orderTasks prios pc a b = - orderTasks prios pc b a /\
  orderTasks prios pc a a = 0.
Proof. rewrite !orderTasks_rank. lia. Qed.

(** * The default table and [tq.addIceCandidate] *)

Lemma enqueue_plain (opts : Options) (nm : string) (handler : TaskFn)
    (o : EnqueueOpts) (arguments : list value) (st : State) :
  opt_processArgs o = None ->
  enqueue opts nm handler o arguments st =
    Normal (triggerQueueCheck None
      (setQueue (enq (orderTasks (priorities opts) (pc st)) (queue st)
                     (mkTask nm handler o arguments))
                (log (Debug ("queueing: " +:+ nm)) st))).
Proof. intros H. unfold enqueue. rewrite H. reflexivity. Qed.

(** C9: under the default priority table, the task enqueued by the public
    addIceCandidate operation is named 'addIceCandidate', a name absent
    from the table (which lists 'candidate'); whenever it is ready its rank
    is the default rank 100, and the comparator orders it after every ready
    task produced by the other four registered operations. *)
Theorem C9_addIceCandidate_default_rank (opts : Options) (st : State)
    (arguments : list value) :
  opts_priorities opts = None ->
  let t := mkTask "addIceCandidate" ApplyCandidate reg_addIceCandidate arguments in
  (exists st', tq_addIceCandidate opts arguments st = Normal st' /\
     queue st' = enq (orderTasks (priorities opts) (pc st)) (queue st) t) /\
  priorities opts = DEFAULT_PRIORITIES /\
  ~ In (name t) (priorities opts) /\
  forall pc, testReady pc t = true ->
    rank (priorities opts) pc t = 100 /\
    forall arguments' u, In u (otherRegisteredTasks opts arguments') ->
      testReady pc u = true ->
      rank (priorities opts) pc u < rank (priorities opts) pc t /\
      orderTasks (priorities opts) pc t u < 0 /\
      0 < orderTasks (priorities opts) pc u t.
Proof.
  intros Hdef t.
  assert (Hp : priorities opts = DEFAULT_PRIORITIES).
  { unfold priorities. rewrite Hdef. reflexivity. }
  split.
  { eexists. split; [apply enqueue_plain; reflexivity | reflexivity]. }
  split; [exact Hp|]. rewrite Hp.
  assert (Habs : ~ In (name t) DEFAULT_PRIORITIES).
  { apply indexOf_absent. reflexivity. }
  split; [exact Habs|].
  intros pc0 Hready.
  assert (Hrt : rank DEFAULT_PRIORITIES pc0 t = 100).
  { apply rank_ready_unlisted; [exact Hready | reflexivity]. }
  split; [exact Hrt|].
  intros arguments' u Hin Hu.
  assert (Hru : rank DEFAULT_PRIORITIES pc0 u < 100).
  { simpl in Hin.
    destruct Hin as [<- | [<- | [<- | [<- | []]]]];
      (rewrite rank_ready_listed; [reflexivity | exact Hu | discriminate]). }
  rewrite !orderTasks_rank. lia.
Qed.

Lemma C9_addIceCandidate_default_rank_witness :
  let t := mkTask "addIceCandidate" ApplyCandidate reg_addIceCandidate [] in
  testReady describedPc t = true /\
  rank DEFAULT_PRIORITIES describedPc t = 100 /\
  orderTasks DEFAULT_PRIORITIES describedPc t
    (mkTask "createOffer" ExecMethod reg_createOffer []) < 0.
Proof.
  pose proof (C9_addIceCandidate_default_rank defaultOptions
                (initialState describedPc) [] eq_refl) as H.
  cbv zeta in H. destruct H as (_ & _ & _ & H).
  destruct (H describedPc eq_refl) as [Hr Hu].
  split; [reflexivity|]. split; [exact Hr|].
  refine (proj1 (proj2 (Hu [] (mkTask "createOffer" ExecMethod reg_createOffer []) _ eq_refl))).
  right. right. left. reflexivity.
Defined.

(** * Settling a task *)

Lemma enqueue_cases (opts : Options) (nm : string) (handler : TaskFn)
    (o : EnqueueOpts) (arguments : list value) (st : State) :
  (exists e, enqueue opts nm handler o arguments st = Abrupt e st) \/
  (exists arguments',
     enqueue opts nm handler o arguments st =
       Normal (triggerQueueCheck None
         (setQueue (enq (orderTasks (priorities opts) (pc st)) (queue st)
                        (mkTask nm handler o arguments'))
                   (log (Debug ("queueing: " +:+ nm)) st)))).
Proof.
  unfold enqueue.
  destruct (match opt_processArgs o with
            | Some f => mapArgs f arguments
            | None => Ok arguments
            end) as [arguments' | e].
  - right. exists arguments'. reflexivity.
  - left. exists e. reflexivity.
Qed.

(** What a call of an enqueue facade leaves alone. *)
Lemma enqueue_frame (opts : Options) (nm : string) (handler : TaskFn)
    (o : EnqueueOpts) (arguments : list value) (st : State) :
  let st' := stateOf (enqueue opts nm handler o arguments st) in
  currentTask st' = currentTask st /\ pc st' = pc st /\
  pcCalls (trace st') = pcCalls (trace st) /\
  (checkQueueTimer st' = checkQueueTimer st \/ checkQueueTimer st' = Some 5).
Proof.
  destruct (enqueue_cases opts nm handler o arguments st) as [[e H] | [a H]];
    cbv zeta; rewrite H; simpl.
  - auto.
  - repeat split; auto. unfold pcCalls. rewrite List.filter_app. simpl.
    apply app_nil_r.
Qed.

(** No handler of the module touches the slot, the resource or the retry
    delay: it logs, emits, or enqueues. *)
Lemma runHandler_frame (opts : Options) (h : Handler) (arguments : list value)
    (st : State) :
  let st' := stateOf (runHandler opts h arguments st) in
  currentTask st' = currentTask st /\ pc st' = pc st /\
  pcCalls (trace st') = pcCalls (trace st) /\
  (checkQueueTimer st' = checkQueueTimer st \/ checkQueueTimer st' = Some 5).
Proof.
  assert (Hlog : forall e, isPcCall e = false ->
            pcCalls (trace (log e st)) = pcCalls (trace st)).
  { intros e He. unfold pcCalls. simpl. rewrite List.filter_app. simpl.
    rewrite He. apply app_nil_r. }
  destruct h; simpl;
    try (repeat split; auto; apply Hlog; reflexivity);
    try apply enqueue_frame.
  unfold completeConnection.
  destruct (String.eqb (signalingState (pc st)) "have-remote-offer").
  - apply enqueue_frame.
  - simpl. auto.
Qed.

Lemma continuation_error (opts : Options) (err : value) (results : list value)
    (st : State) (task : Task) :
  currentTask st = Some task -> truthy err = true ->
  continuation opts err results st =
    runHandler opts (default H_defaultFail (fail task)) [err]
      (log (ConsoleError err) (setCurrentTask None st)).
Proof. intros Hc He. unfold continuation. rewrite Hc, He. reflexivity. Qed.

Lemma continuation_success (opts : Options) (err : value) (results : list value)
    (st : State) (task : Task) :
  currentTask st = Some task -> truthy err = false ->
  continuation opts err results st =
    andThen
      match pass task with
      | Some h => runHandler opts h results (setCurrentTask None st)
      | None => Normal (setCurrentTask None st)
      end
      (fun st => Normal (triggerQueueCheck None st)).
Proof. intros Hc He. unfold continuation. rewrite Hc, He. reflexivity. Qed.

(** C3: when the execution strategy reports an error to the continuation,
    the single-flight slot is vacated, the error is printed, the task's fail
    handler (the default failure sink when the task has none) is invoked
    with the error, the pass handler is not invoked (the outcome is the same
    whatever pass handler the task carries), and the settlement does not
    re-arm the poll trigger: the timer handed to the fail handler is the
    timer as it was, and with the default sink it is still so afterwards. *)
Theorem C3_error_settlement (opts : Options) (st : State) (task : Task)
    (err : value) (results : list value) :
  currentTask st = Some task ->
  truthy err = true ->
  let st1 := log (ConsoleError err) (setCurrentTask None st) in
  continuation opts err results st =
    runHandler opts (default H_defaultFail (fail task)) [err] st1 /\
  currentTask st1 = None /\
  queue st1 = queue st /\
  checkQueueTimer st1 = checkQueueTimer st /\
  currentTask (stateOf (continuation opts err results st)) = None /\
  (forall p,
     continuation opts err results (setCurrentTask (Some (setPass p task)) st) =
     continuation opts err results st) /\
  (fail task = None ->
   continuation opts err results st = Normal (log (Emit "fail" [err]) st1) /\
   checkQueueTimer (stateOf (continuation opts err results st)) = checkQueueTimer st /\
   queue (stateOf (continuation opts err results st)) = queue st).
Proof.
  intros Hc He st1.
  pose proof (continuation_error opts err results st task Hc He) as Heq.
  split; [exact Heq|].
  split; [reflexivity|]. split; [reflexivity|]. split; [reflexivity|].
  split.
  { rewrite Heq.
    destruct (runHandler_frame opts (default H_defaultFail (fail task)) [err] st1)
      as (Hs & _). exact Hs. }
  split.
  { intros p.
    rewrite (continuation_error opts err results
               (setCurrentTask (Some (setPass p task)) st) (setPass p task)
               eq_refl He).
    rewrite Heq. reflexivity. }
  intros Hfail. rewrite Heq, Hfail. repeat split.
Qed.

Lemma C3_error_settlement_witness :
  continuation defaultOptions (VError "boom") []
    (busyState offerTask (plainPc "stable")) =
  Normal {| queue := []; currentTask := None; checkQueueTimer := None;
            pc := plainPc "stable";
            trace := [ConsoleError (VError "boom"); Emit "fail" [VError "boom"]] |}.
Proof.
  destruct (C3_error_settlement defaultOptions
              (busyState offerTask (plainPc "stable")) offerTask
              (VError "boom") [] eq_refl eq_refl) as (_ & _ & _ & _ & _ & _ & H).
  exact (proj1 (H eq_refl)).
Defined.

(** C4: whenever the continuation of an executing task is invoked, with an
    error or with success, the slot is cleared before a handler runs: the
    state handed to the fail or pass handler has an empty slot, and the slot
    is still empty when the continuation returns.  So when the pass handler
    enqueues new work (createOffer and createAnswer chain into
    setLocalDescription) the new task is pushed while the slot is empty, and
    the poll that follows promotes it instead of finding the settled task
    in the slot. *)
Theorem C4_slot_cleared_before_handlers (opts : Options) (st : State) (task : Task)
    (err : value) (results : list value) :
  currentTask st = Some task ->
  let st1 := setCurrentTask None st in
  let cmp := orderTasks (priorities opts) (pc st) in
  let chained := mkTask "setLocalDescription" ExecMethod reg_setLocalDescription results in
  currentTask st1 = None /\
  continuation opts err results st =
    (if truthy err
     then runHandler opts (default H_defaultFail (fail task)) [err]
            (log (ConsoleError err) st1)
     else andThen
            match pass task with
            | Some h => runHandler opts h results st1
            | None => Normal st1
            end
            (fun s => Normal (triggerQueueCheck None s))) /\
  currentTask (stateOf (continuation opts err results st)) = None /\
  (truthy err = false -> pass task = Some H_tq_setLocalDescription ->
   exists st2,
     continuation opts err results st = Normal st2 /\
     currentTask st2 = None /\
     queue st2 = enq cmp (queue st) chained /\
     checkQueueTimer st2 = Some 5 /\
     (queue st = [] -> hasMethod (pc st) "setLocalDescription" = true ->
      exists st3,
        fireTimer opts st2 = Normal st3 /\
        currentTask st3 = Some chained /\
        queue st3 = [] /\
        pcCalls (trace st3) =
          (pcCalls (trace st) ++ [PcCall "setLocalDescription" results])%list)).
Proof.
  intros Hc st1 cmp chained.
  split; [reflexivity|].
  assert (Heq : continuation opts err results st =
    (if truthy err
     then runHandler opts (default H_defaultFail (fail task)) [err]
            (log (ConsoleError err) st1)
     else andThen
            match pass task with
            | Some h => runHandler opts h results st1
            | None => Normal st1
            end
            (fun s => Normal (triggerQueueCheck None s)))).
  { unfold continuation. rewrite Hc. reflexivity. }
  split; [exact Heq|]. split.
  - rewrite Heq. destruct (truthy err).
    + destruct (runHandler_frame opts (default H_defaultFail (fail task)) [err]
                  (log (ConsoleError err) st1)) as (Hs & _). exact Hs.
    + destruct (pass task) as [h|]; [|reflexivity].
      destruct (runHandler_frame opts h results st1) as (Hs & _).
      destruct (runHandler opts h results st1); exact Hs.
  - intros He Hp. rewrite Heq, He, Hp.
    unfold runHandler, tq_setLocalDescription.
    rewrite enqueue_plain by reflexivity.
    eexists. split; [reflexivity|]. simpl.
    split; [reflexivity|]. split; [reflexivity|]. split; [reflexivity|].
    intros Hq Hm. rewrite Hq.
    unfold fireTimer, checkQueue, runTask, execMethod. simpl. rewrite Hm.
    eexists. split; [reflexivity|]. simpl.
    split; [reflexivity|]. split; [reflexivity|].
    unfold pcCalls. rewrite !List.filter_app. simpl. rewrite !app_nil_r.
    reflexivity.
Qed.

Lemma C4_slot_cleared_before_handlers_witness :
  exists st2 st3,
    continuation defaultOptions VNull [VStr "sdp"]
      (busyState offerTask (plainPc "stable")) = Normal st2 /\
    currentTask st2 = None /\
    fireTimer defaultOptions st2 = Normal st3 /\
    currentTask st3 =
      Some (mkTask "setLocalDescription" ExecMethod reg_setLocalDescription [VStr "sdp"]).
Proof.
  destruct (C4_slot_cleared_before_handlers defaultOptions
              (busyState offerTask (plainPc "stable")) offerTask
              VNull [VStr "sdp"] eq_refl) as (_ & _ & _ & H).
  destruct (H eq_refl eq_refl) as (st2 & H2 & Hs & _ & _ & H3).
  destruct (H3 eq_refl eq_refl) as (st3 & Hf & Hc & _).
  exists st2, st3. repeat split; assumption.
Defined.

(** * Strategies *)

(** C7: when the task's name does not denote a function on the managed
    resource, the direct invocation strategy invokes the continuation at
    once with the error 'cannot call "name" on RTCPeerConnection'; no
    operation of the resource is called; the error goes to the fail handler
    (the default sink for every registered operation), and the task is not
    retried: a poll that promotes such a task leaves it neither in the slot
    nor in the queue, and arms no timer. *)
Theorem C7_unsupported_operation (opts : Options) (st : State) (task : Task) :
  currentTask st = Some task ->
  hasMethod (pc st) (name task) = false ->
  let e := unsupported (name task) in
  execMethod opts task st = continuation opts e [] st /\
  truthy e = true /\
  execMethod opts task st =
    runHandler opts (default H_defaultFail (fail task)) [e]
      (log (ConsoleError e) (setCurrentTask None st)) /\
  pcCalls (trace (stateOf (execMethod opts task st))) = pcCalls (trace st) /\
  currentTask (stateOf (execMethod opts task st)) = None /\
  (fail task = None ->
   execMethod opts task st =
     Normal (log (Emit "fail" [e]) (log (ConsoleError e) (setCurrentTask None st)))) /\
  (forall st0,
     currentTask st0 = None -> pc st0 = pc st ->
     peek (queue st0) = Some task -> testReady (pc st0) task = true ->
     fn task = ExecMethod -> fail task = None ->
     exists rest st',
       deq (orderTasks (priorities opts) (pc st0)) (queue st0) = Some (task, rest) /\
       checkQueue opts st0 = Normal st' /\
       queue st' = rest /\ currentTask st' = None /\
       checkQueueTimer st' = checkQueueTimer st0 /\
       trace st' = (trace st0 ++ [Debug ("running " +:+ name task);
                                  ConsoleError e; Emit "fail" [e]])%list).
Proof.
  intros Hc Hm e.
  assert (H1 : execMethod opts task st = continuation opts e [] st).
  { unfold execMethod. rewrite Hm. reflexivity. }
  assert (H2 : continuation opts e [] st =
    runHandler opts (default H_defaultFail (fail task)) [e]
      (log (ConsoleError e) (setCurrentTask None st))).
  { apply continuation_error; [exact Hc | reflexivity]. }
  split; [exact H1|]. split; [reflexivity|].
  split; [rewrite H1; exact H2|].
  destruct (runHandler_frame opts (default H_defaultFail (fail task)) [e]
              (log (ConsoleError e) (setCurrentTask None st)))
    as (Hs & _ & Hp & _).
  split.
  { rewrite H1, H2, Hp. unfold pcCalls. simpl. rewrite List.filter_app. simpl.
    apply app_nil_r. }
  split; [rewrite H1, H2; exact Hs|].
  split.
  { intros Hf. rewrite H1, H2, Hf. reflexivity. }
  intros st0 Hs0 Hpc Hpeek Hready Hfn Hf.
  destruct (deq_peek (orderTasks (priorities opts) (pc st0)) (queue st0) task Hpeek)
    as [rest Hdeq].
  exists rest. unfold checkQueue.
  assert (Hne : isEmpty (queue st0) = false).
  { destruct (queue st0); [discriminate | reflexivity]. }
  rewrite Hne, Hs0. cbn [negb andb occupied]. rewrite Hpeek, Hready, Hdeq.
  cbn [negb]. unfold runTask. rewrite Hfn. unfold execMethod. simpl.
  rewrite Hpc, Hm. unfold continuation. simpl. rewrite Hf. simpl.
  eexists. split; [reflexivity|]. split; [reflexivity|]. simpl.
  repeat split. rewrite <- !app_assoc. reflexivity.
Qed.

Lemma C7_unsupported_operation_witness :
  execMethod defaultOptions offerTask (busyState offerTask legacyPc) =
  Normal {| queue := []; currentTask := None; checkQueueTimer := None;
            pc := legacyPc;
            trace := [ConsoleError (unsupported "createOffer");
                      Emit "fail" [unsupported "createOffer"]] |}.
Proof.
  destruct (C7_unsupported_operation defaultOptions (busyState offerTask legacyPc)
              offerTask eq_refl eq_refl) as (_ & _ & _ & _ & _ & H & _).
  exact (H eq_refl).
Defined.

Lemma getProp_property (v : value) (k : string) :
  isNullish v = false -> getProp v k = Ok (property v k).
Proof. destruct v; simpl; intros H; try discriminate H; reflexivity. Qed.

Lemma getProp_nullish (v : value) (k : string) :
  isNullish v = true -> exists e, getProp v k = Throw e.
Proof. destruct v; simpl; intros H; try discriminate H; eexists; reflexivity. Qed.

Lemma truthy_not_nullish (v : value) : truthy v = true -> isNullish v = false.
Proof. destruct v; simpl; intros H; try discriminate H; reflexivity. Qed.

Lemma candidateData_payloadOf (data : value) :
  isNullish data = false -> candidateData data = Ok (payloadOf data).
Proof.
  intros H. unfold candidateData, payloadOf, isEventWrapper.
  rewrite !getProp_property by exact H. simpl.
  destruct (truthy (property data "srcElement")); simpl; [|reflexivity].
  destruct (truthy (property data "candidate")); reflexivity.
Qed.

Lemma payloadOf_not_nullish (data : value) :
  isNullish data = false -> isNullish (payloadOf data) = false.
Proof.
  intros H. unfold payloadOf, isEventWrapper.
  destruct (truthy (property data "srcElement")); simpl; [|exact H].
  destruct (truthy (property data "candidate")) eqn:Hc; [|exact H].
  apply truthy_not_nullish. exact Hc.
Qed.

(** The three ways through [applyCandidate]. *)
Lemma applyCandidate_cases (opts : Options) (task : Task) (st : State) :
  let data := nth 0 (args task) VUndefined in
  (isNullish data = true ->
   exists e, applyCandidate opts task st = Abrupt e st) /\
  (isNullish data = false -> endOfCandidates data = true ->
   applyCandidate opts task st = continuation opts VUndefined [] st) /\
  (realCandidate data = true ->
   applyCandidate opts task st =
     continuation opts VUndefined []
       (tryAddIceCandidate opts (payloadOf data) st)).
Proof.
  cbv zeta. unfold applyCandidate, endOfCandidates, realCandidate, candidateMarker.
  destruct (isNullish (nth 0 (args task) VUndefined)) eqn:Hn.
  - split; [|split]; try (intros H; discriminate H). intros _.
    unfold candidateData.
    destruct (getProp_nullish _ "srcElement" Hn) as [e He]. rewrite He.
    exists e. reflexivity.
  - split; [intros H; discriminate H|].
    rewrite candidateData_payloadOf by exact Hn.
    rewrite getProp_property by (apply payloadOf_not_nullish; exact Hn).
    simpl. split.
    + intros _ H. apply negb_true_iff in H. rewrite H. reflexivity.
    + intros H. rewrite H. reflexivity.
Qed.

Lemma tryAddIceCandidate_frame (opts : Options) (data : value) (st : State) :
  let st' := tryAddIceCandidate opts data st in
  queue st' = queue st /\ currentTask st' = currentTask st /\
  checkQueueTimer st' = checkQueueTimer st /\ pc st' = pc st /\
  failureReports (trace st') = failureReports (trace st).
Proof.
  cbv zeta. unfold tryAddIceCandidate, failureReports.
  destruct (createIceCandidate opts data) as [c|e].
  - destruct (hasMethod (pc st) "addIceCandidate"); simpl.
    + destruct (addIceCandidateRaises (pc st) c); simpl;
        rewrite ?List.filter_app; simpl; rewrite ?app_nil_r; auto.
    + rewrite List.filter_app. simpl. rewrite app_nil_r. auto.
  - simpl. rewrite List.filter_app. simpl. rewrite app_nil_r. auto.
Qed.

(** C5: the candidate-application strategy never reports failure to the
    continuation: for every input either a TypeError escapes before the
    continuation is reached (first argument missing or null) or the
    continuation is invoked without an error.  When the first argument
    carries a candidate and constructing the candidate object throws, or
    applying it to the resource throws (or the resource has no
    addIceCandidate function), the error is logged with console.warn and the
    continuation is still invoked with success: the task settles, the poll
    trigger is re-armed and nothing is reported as a failure. *)
Theorem C5_candidate_errors_swallowed (opts : Options) (task : Task) (st : State) :
  let data := nth 0 (args task) VUndefined in
  let payload := payloadOf data in
  ((exists e, applyCandidate opts task st = Abrupt e st) \/
   (exists st', applyCandidate opts task st = continuation opts VUndefined [] st')) /\
  truthy VUndefined = false /\
  (realCandidate data = true ->
   (forall e, createIceCandidate opts payload = Throw e ->
      applyCandidate opts task st =
        continuation opts VUndefined [] (log (ConsoleWarn invalidCandidate e) st)) /\
   (forall c e, createIceCandidate opts payload = Ok c ->
      hasMethod (pc st) "addIceCandidate" = true ->
      addIceCandidateRaises (pc st) c = Some e ->
      applyCandidate opts task st =
        continuation opts VUndefined []
          (log (ConsoleWarn invalidCandidate e)
             (log (PcCall "addIceCandidate" [c]) st))) /\
   (forall c, createIceCandidate opts payload = Ok c ->
      hasMethod (pc st) "addIceCandidate" = false ->
      exists e,
        applyCandidate opts task st =
          continuation opts VUndefined [] (log (ConsoleWarn invalidCandidate e) st)) /\
   (currentTask st = Some task -> pass task = None ->
    exists st', applyCandidate opts task st = Normal st' /\
      currentTask st' = None /\ checkQueueTimer st' = Some 5 /\
      failureReports (trace st') = failureReports (trace st))).
Proof.
  intros data payload.
  destruct (applyCandidate_cases opts task st) as (Hnull & Hend & Hreal).
  fold data in Hnull, Hend, Hreal. fold payload in Hreal.
  split.
  { destruct (isNullish data) eqn:Hn.
    - left. apply Hnull. reflexivity.
    - right. destruct (truthy (candidateMarker data)) eqn:Hm.
      + eexists. apply Hreal. unfold realCandidate. rewrite Hn, Hm. reflexivity.
      + eexists. apply Hend; [reflexivity|].
        unfold endOfCandidates. rewrite Hm. reflexivity. }
  split; [reflexivity|].
  intros Hr. rewrite (Hreal Hr).
  split; [|split; [|split]].
  - intros e He. unfold tryAddIceCandidate. rewrite He. reflexivity.
  - intros c e Hc Hm Hraise. unfold tryAddIceCandidate.
    rewrite Hc, Hm. simpl. rewrite Hraise. reflexivity.
  - intros c Hc Hm. unfold tryAddIceCandidate. rewrite Hc, Hm.
    eexists. reflexivity.
  - intros Hslot Hpass.
    destruct (tryAddIceCandidate_frame opts payload st) as (_ & Hs & _ & _ & Hf).
    unfold continuation. rewrite Hs, Hslot, Hpass. simpl.
    eexists. split; [reflexivity|]. simpl. auto.
Qed.

Lemma C5_candidate_errors_swallowed_witness :
  applyCandidate strictOptions garbledCandidate
    (busyState garbledCandidate describedPc) =
  Normal {| queue := []; currentTask := None; checkQueueTimer := Some 5;
            pc := describedPc;
            trace := [ConsoleWarn invalidCandidate (VError "malformed candidate")] |}.
Proof.
  destruct (C5_candidate_errors_swallowed strictOptions garbledCandidate
              (busyState garbledCandidate describedPc)) as (_ & _ & H).
  destruct (H eq_refl) as (H1 & _).
  rewrite (H1 (VError "malformed candidate") eq_refl). reflexivity.
Defined.

Lemma endOfCandidates_nullish (data : value) :
  isNullish data = true -> endOfCandidates data = true.
Proof. destruct data; simpl; intros H; try discriminate H; reflexivity. Qed.

(** C6 (defect at a missing or [null] first argument): when the first
    argument is given and its payload, raw or wrapped in an event, has an
    empty or absent candidate marker, the candidate-application strategy
    invokes the continuation with success at once, on the state as it found
    it: no operation of the managed resource is invoked and no exception is
    raised.  When the first argument is missing or [null], which carries no
    marker either and is what [tq.addIceCandidate(null)] and
    [tq.addIceCandidate()] queue, reading [data.srcElement] throws before
    the sentinel test: the exception escapes and the continuation is not
    invoked. *)
Theorem C6_end_of_candidates (opts : Options) (task : Task) (st : State) :
  let data := nth 0 (args task) VUndefined in
  (isNullish data = true ->
   endOfCandidates data = true /\
   exists e, applyCandidate opts task st = Abrupt e st) /\
  (isNullish data = false -> endOfCandidates data = true ->
   applyCandidate opts task st = continuation opts VUndefined [] st /\
   truthy VUndefined = false /\
   (currentTask st = Some task ->
    pcCalls (trace (stateOf (applyCandidate opts task st))) = pcCalls (trace st) /\
    currentTask (stateOf (applyCandidate opts task st)) = None /\
    (pass task = None ->
     applyCandidate opts task st =
       Normal (triggerQueueCheck None (setCurrentTask None st))))).
Proof.
  intros data.
  destruct (applyCandidate_cases opts task st) as (Hnull & Hend & _).
  fold data in Hnull, Hend. split.
  - intros Hn. split; [apply endOfCandidates_nullish; exact Hn | apply Hnull; exact Hn].
  - intros Hn He. rewrite (Hend Hn He).
    split; [reflexivity|]. split; [reflexivity|].
    intros Hslot.
    rewrite (continuation_success opts VUndefined [] st task Hslot eq_refl).
    destruct (pass task) as [h|].
    + destruct (runHandler_frame opts h [] (setCurrentTask None st))
        as (Hs & _ & Hp & _).
      destruct (runHandler opts h [] (setCurrentTask None st)); simpl in *;
        (split; [exact Hp|]); (split; [exact Hs|]); intros Hx; discriminate Hx.
    + simpl. auto.
Qed.

Lemma C6_end_of_candidates_witness :
  (endOfCandidates VNull = true /\
   exists e, applyCandidate defaultOptions nullCandidate
               (busyState nullCandidate describedPc) =
             Abrupt e (busyState nullCandidate describedPc)) /\
  applyCandidate defaultOptions lastCandidate
    (busyState lastCandidate describedPc) =
  Normal {| queue := []; currentTask := None; checkQueueTimer := Some 5;
            pc := describedPc; trace := [] |}.
Proof.
  split.
  - exact (proj1 (C6_end_of_candidates defaultOptions nullCandidate
                    (busyState nullCandidate describedPc)) eq_refl).
  - destruct (proj2 (C6_end_of_candidates defaultOptions lastCandidate
                       (busyState lastCandidate describedPc)) eq_refl eq_refl)
      as (_ & _ & H).
    destruct (H eq_refl) as (_ & _ & H3). exact (H3 eq_refl).
Defined.

(** On a [null] first argument reading [data.srcElement] throws before the
    sentinel test: the continuation is never invoked and the slot stays
    occupied. *)
Lemma applyCandidate_null_argument :
  let t := mkTask "addIceCandidate" ApplyCandidate reg_addIceCandidate [VNull] in
  applyCandidate defaultOptions t (busyState t describedPc) =
  Abrupt (VError "Cannot read properties of null (reading 'srcElement')")
         (busyState t describedPc).
Proof. reflexivity. Qed.

(** * Polling a closed resource *)

Lemma continuation_timer (opts : Options) (err : value) (results : list value)
    (st : State) :
  let st' := stateOf (continuation opts err results st) in
  checkQueueTimer st' = checkQueueTimer st \/ checkQueueTimer st' = Some 5.
Proof.
  cbv zeta. unfold continuation. destruct (currentTask st) as [task|]; [|left; reflexivity].
  destruct (truthy err).
  - destruct (runHandler_frame opts (default H_defaultFail (fail task)) [err]
                (log (ConsoleError err) (setCurrentTask None st)))
      as (_ & _ & _ & H). exact H.
  - destruct (pass task) as [h|]; [|right; reflexivity].
    destruct (runHandler_frame opts h results (setCurrentTask None st))
      as (_ & _ & _ & H).
    destruct (runHandler opts h results (setCurrentTask None st)); simpl in *;
      [right; reflexivity | exact H].
Qed.

Lemma runTask_timer (opts : Options) (task : Task) (st : State) :
  let st' := stateOf (runTask opts task st) in
  checkQueueTimer st' = checkQueueTimer st \/ checkQueueTimer st' = Some 5.
Proof.
  cbv zeta. unfold runTask. destruct (fn task).
  - unfold applyCandidate.
    destruct (candidateData (nth 0 (args task) VUndefined)) as [data|e];
      [|left; reflexivity].
    destruct (getProp data "candidate") as [marker|e]; [|left; reflexivity].
    destruct (negb (truthy marker)).
    + apply continuation_timer.
    + destruct (tryAddIceCandidate_frame opts data st) as (_ & _ & Ht & _).
      rewrite <- Ht. apply continuation_timer.
  - unfold execMethod. destruct (hasMethod (pc st) (name task)).
    + left. reflexivity.
    + apply continuation_timer.
Qed.

(** On a closed resource a poll arms nothing but the short delay that
    follows a settled task. *)
Lemma checkQueue_closed_timer (opts : Options) (st : State) :
  isNotClosed (pc st) = false ->
  let st' := stateOf (checkQueue opts st) in
  checkQueueTimer st' = checkQueueTimer st \/ checkQueueTimer st' = Some 5.
Proof.
  intros Hclosed. cbv zeta. unfold checkQueue. rewrite Hclosed, andb_false_r.
  destruct (negb _); [left; reflexivity|].
  destruct (deq _ _) as [[task rest]|]; [|left; reflexivity].
  apply (runTask_timer opts task
           (log (Debug ("running " +:+ name task))
              (setCurrentTask (Some task) (setQueue rest st)))).
Qed.

(** A poll that finds nothing ready on a closed resource changes nothing. *)
Lemma checkQueue_closed_unready (opts : Options) (st : State) (t : Task) :
  isNotClosed (pc st) = false ->
  queue st = [t] -> testReady (pc st) t = false ->
  checkQueue opts st = Normal st.
Proof.
  intros Hclosed Hq Hr. unfold checkQueue. rewrite Hclosed, Hq. simpl.
  destruct (occupied (currentTask st)); simpl; [reflexivity|].
  rewrite Hr. reflexivity.
Qed.

(** C2, as stated, fails: on a closed resource the poll that finds the
    set-remote-description task unready arms no retry at all, let alone one
    at the retry delay of 100; the timer never fires again. *)
Lemma C2_counterexample :
  let t := mkTask "setRemoteDescription" ExecMethod
             (reg_setRemoteDescription defaultOptions) [remoteOffer] in
  let st1 := stateOf (tq_setRemoteDescription defaultOptions [remoteOffer]
                        (initialState closedPc)) in
  let st2 := stateOf (fireTimer defaultOptions st1) in
  queue st1 = [t] /\ checkQueueTimer st1 = Some 5 /\
  queue st2 = [t] /\ currentTask st2 = None /\
  checkQueueTimer st2 = None /\
  ~ (checkQueueTimer st2 = Some 100) /\
  fireTimer defaultOptions st2 = Normal st2.
Proof.
  cbv zeta. repeat split; try reflexivity. intros H. discriminate H.
Qed.

(** C2 (amended): if a set-remote-description task is enqueued while the
    resource's signaling state is closed, its readiness check fails for as
    long as the state is closed; the poll armed by the enqueue finds it
    unready, leaves it pending and unexecuted, and, the resource being
    closed, arms no retry: polling stops, and the task stays pending until
    something else triggers the queue.  No poll of a closed resource ever
    arms the retry delay of 100. *)
Theorem C2_closed_resource_stops_polling (opts : Options) (st : State)
    (arguments arguments' : list value) :
  signalingState (pc st) = "closed" ->
  mapArgs (createSessionDescription opts) arguments = Ok arguments' ->
  let t := mkTask "setRemoteDescription" ExecMethod
             (reg_setRemoteDescription opts) arguments' in
  let cmp := orderTasks (priorities opts) (pc st) in
  testReady (pc st) t = false /\
  (forall s, signalingState (pc s) = "closed" ->
     checkQueueTimer (stateOf (fireTimer opts s)) <> Some 100) /\
  exists st1,
    tq_setRemoteDescription opts arguments st = Normal st1 /\
    queue st1 = enq cmp (queue st) t /\
    currentTask st1 = currentTask st /\
    checkQueueTimer st1 = Some 5 /\
    pc st1 = pc st /\
    (queue st = [] ->
     let st2 := setTimer None st1 in
     fireTimer opts st1 = Normal st2 /\
     queue st2 = [t] /\
     currentTask st2 = currentTask st /\
     checkQueueTimer st2 = None /\
     pcCalls (trace st2) = pcCalls (trace st) /\
     checkQueue opts st2 = Normal st2 /\
     forall n, Nat.iter n (fun s => stateOf (fireTimer opts s)) st2 = st2).
Proof.
  intros Hclosed Hargs t cmp.
  assert (Hnc : forall p, signalingState p = "closed" -> isNotClosed p = false).
  { intros p Hp. unfold isNotClosed. rewrite Hp. reflexivity. }
  assert (Hready : forall p, signalingState p = "closed" -> testReady p t = false).
  { intros p Hp. unfold testReady. simpl. rewrite (Hnc p Hp). reflexivity. }
  split; [apply Hready; exact Hclosed|]. split.
  { intros s Hs. unfold fireTimer. destruct (checkQueueTimer s) as [d|] eqn:Hd.
    - destruct (checkQueue_closed_timer opts (setTimer None s) (Hnc _ Hs)) as [H | H];
        rewrite H; simpl; discriminate.
    - simpl. rewrite Hd. discriminate. }
  unfold tq_setRemoteDescription, enqueue. simpl. rewrite Hargs.
  eexists. split; [reflexivity|]. simpl.
  split; [reflexivity|]. split; [reflexivity|]. split; [reflexivity|].
  split; [reflexivity|].
  intros Hq. rewrite Hq. simpl.
  set (st2 := setTimer None _).
  assert (Hpoll : checkQueue opts st2 = Normal st2).
  { apply (checkQueue_closed_unready opts st2 t).
    - apply Hnc. exact Hclosed.
    - reflexivity.
    - apply Hready. exact Hclosed. }
  split; [exact Hpoll|]. split; [reflexivity|]. split; [reflexivity|].
  split; [reflexivity|]. split.
  { unfold pcCalls. simpl. rewrite List.filter_app. simpl. apply app_nil_r. }
  split; [exact Hpoll|].
  induction n as [|n IH]; [reflexivity|]. simpl. rewrite IH. reflexivity.
Qed.

Lemma C2_closed_resource_stops_polling_witness :
  let t := mkTask "setRemoteDescription" ExecMethod
             (reg_setRemoteDescription defaultOptions) [remoteOffer] in
  exists st1,
    tq_setRemoteDescription defaultOptions [remoteOffer] (initialState closedPc)
      = Normal st1 /\
    fireTimer defaultOptions st1 = Normal (setTimer None st1) /\
    queue (setTimer None st1) = [t] /\
    checkQueueTimer (setTimer None st1) = None.
Proof.
  destruct (C2_closed_resource_stops_polling defaultOptions (initialState closedPc)
              [remoteOffer] [remoteOffer] eq_refl eq_refl)
    as (_ & _ & st1 & H1 & _ & _ & _ & _ & H).
  destruct (H eq_refl) as (H2 & H3 & _ & H4 & _).
  exists st1. repeat split; assumption.
Defined.


(** * The queue keeps its tasks

    Sifting permutes the array: whatever the comparator answers, and
    however the resource state moves between two operations, [enq] adds
    exactly the element pushed and [deq] removes exactly the head. *)

Section QueueContents.

Context {A : Type}.
Variable comparator : A -> A -> Z.

Lemma insert_Permutation (l : list A) (i : nat) (x y : A) :
  l !! i = Some x -> <[i:=y]> l ≡ₚ y :: delete i l.
Proof.
  intros Hx. assert (Hi : (i < length l)%nat) by (eapply lookup_lt_Some; exact Hx).
  rewrite insert_take_drop by exact Hi. rewrite delete_take_drop.
  symmetry. apply Permutation_middle.
Qed.

Lemma swap_Permutation (l : list A) (a b : nat) : _swap l a b ≡ₚ l.
Proof.
  unfold _swap. destruct (l !! a) as [x|] eqn:Hx; [|reflexivity].
  destruct (l !! b) as [y|] eqn:Hy; [|reflexivity].
  assert (Ha : (a < length l)%nat) by (eapply lookup_lt_Some; exact Hx).
  destruct (decide (a = b)) as [-> | Hne].
  - rewrite list_insert_insert_eq. rewrite Hx in Hy. injection Hy as ->.
    rewrite list_insert_id by exact Hx. reflexivity.
  - assert (Hm : <[a:=y]> l !! b = Some y).
    { rewrite list_lookup_insert_ne by exact Hne. exact Hy. }
    rewrite (insert_Permutation _ b y x Hm).
    pose proof (delete_Permutation _ b y Hm) as H1.
    pose proof (insert_Permutation l a x y Hx) as H2.
    assert (H3 : delete b (<[a:=y]> l) ≡ₚ delete a l).
    { apply (Permutation_cons_inv (a := y)). rewrite <- H1. exact H2. }
    rewrite H3. symmetry. apply delete_Permutation. exact Hx.
Qed.

Lemma siftUp_Permutation (fuel : nat) (l : list A) (c : nat) :
  siftUp comparator fuel l c ≡ₚ l.
Proof.
  revert l c. induction fuel as [|fuel IH]; intros l c; cbn [siftUp];
    [reflexivity|].
  destruct (0 <? c)%nat; [|reflexivity].
  destruct (_ <=? 0); [reflexivity|].
  rewrite IH. apply swap_Permutation.
Qed.

Lemma siftDown_Permutation (fuel : nat) (l : list A) (c : nat) :
  siftDown comparator fuel l c ≡ₚ l.
Proof.
  revert l c. induction fuel as [|fuel IH]; intros l c; cbn [siftDown];
    [reflexivity|].
  destruct (c <? length l)%nat; [|reflexivity].
  destruct (_ =? c)%nat; [reflexivity|].
  rewrite IH. apply swap_Permutation.
Qed.

Lemma enq_Permutation (l : list A) (x : A) : enq comparator l x ≡ₚ x :: l.
Proof.
  unfold enq. rewrite siftUp_Permutation. symmetry. apply Permutation_cons_append.
Qed.

#[local] Opaque siftDown.

Lemma deq_Permutation (l rest : list A) (h : A) :
  deq comparator l = Some (h, rest) -> l ≡ₚ h :: rest.
Proof.
  destruct l as [|first tl]; [discriminate|].
  destruct (deq_cases comparator first tl) as [[-> H] | (tl' & lst & -> & H)];
    rewrite H; intros Heq; injection Heq as <- <-.
  - reflexivity.
  - rewrite siftDown_Permutation. apply Permutation_skip.
    symmetry. apply Permutation_cons_append.
Qed.

#[local] Transparent siftDown.

End QueueContents.

(** * Readiness and ranks of the registered operations *)

Lemma fold_left_checks (pc : PeerConnection) (cs : list (PeerConnection -> bool)) (memo : bool) :
  fold_left (fun memo check => memo && check pc) cs memo =
  memo && forallb (fun check => check pc) cs.
Proof.
  revert memo. induction cs as [|c cs IH]; intros memo; simpl.
  - rewrite andb_true_r. reflexivity.
  - rewrite IH, andb_assoc. reflexivity.
Qed.

(** X1: a task is ready exactly when every one of its checks holds of the
    resource; a task without checks is always ready, and a task is unready
    exactly when one of its checks fails. *)
Theorem testReady_all_checks (pc : PeerConnection) (t : Task) :
  (testReady pc t = true <-> forall check, In check (checks t) -> check pc = true) /\
  (testReady pc t = false <-> exists check, In check (checks t) /\ check pc = false) /\
  (checks t = [] -> testReady pc t = true).
Proof.
  unfold testReady. rewrite fold_left_checks. simpl.
  split; [apply forallb_forall|]. split.
  - rewrite <- not_true_iff_false, forallb_forall. split.
    + intros H. induction (checks t) as [|c cs IH].
      * exfalso. apply H. intros c [].
      * destruct (c pc) eqn:Hc.
        -- destruct IH as (c' & Hin & Hc').
           { intros Hall. apply H. intros c' [<- | Hin]; [exact Hc | apply Hall; exact Hin]. }
           exists c'. split; [right; exact Hin | exact Hc'].
        -- exists c. split; [left; reflexivity | exact Hc].
    + intros (c & Hin & Hc) Hall. rewrite (Hall c Hin) in Hc. discriminate Hc.
  - intros ->. reflexivity.
Qed.

(** X2: for a fixed resource state the comparator is the difference of two
    ranks: it adds up along a chain of tasks, so it is total and
    transitive, a valid order for the heap. *)
Theorem orderTasks_total_preorder (prios : list string) (pc : PeerConnection) :
  (forall a b c, orderTasks prios pc a c =
                 orderTasks prios pc a b + orderTasks prios pc b c) /\
  (forall a b, 0 <= orderTasks prios pc a b \/ 0 <= orderTasks prios pc b a) /\
  (forall a b c, 0 <= orderTasks prios pc a b -> 0 <= orderTasks prios pc b c ->
                 0 <= orderTasks prios pc a c).
Proof.
  split; [|split]; intros; rewrite ?orderTasks_rank in *; lia.
Qed.

(** X3: static priority plays no part between two tasks that are not
    ready: the comparator ties them whatever their names and whatever the
    priority table; two ready tasks of the same name tie as well. *)
Theorem orderTasks_ties (prios : list string) (pc : PeerConnection) (a b : Task) :
  (testReady pc a = false -> testReady pc b = false ->
   orderTasks prios pc a b = 0) /\
  (testReady pc a = true -> testReady pc b = true -> name a = name b ->
   orderTasks prios pc a b = 0).
Proof.
  rewrite orderTasks_rank. split.
  - intros Ha Hb. rewrite !rank_wait by assumption. lia.
  - intros Ha Hb Hn. unfold rank, taskPriority. rewrite Ha, Hb, Hn. lia.
Qed.

Lemma orderTasks_ties_witness :
  orderTasks DEFAULT_PRIORITIES closedPc
    (plainTask "createOffer" [isNotClosed])
    (plainTask "setRemoteDescription" [isNotClosed]) = 0.
Proof.
  apply (proj1 (orderTasks_ties DEFAULT_PRIORITIES closedPc
                  (plainTask "createOffer" [isNotClosed])
                  (plainTask "setRemoteDescription" [isNotClosed])));
    reflexivity.
Defined.

(** X4: when each registered operation's task is ready, in terms of the
    resource: a candidate needs a local or a remote description (anything
    but [null]); setLocalDescription is always ready;
    setRemoteDescription and createAnswer need a signaling state other than
    'closed'; createOffer needs one that is neither 'closed' nor
    'have-local-offer'.  The arguments play no part. *)
Theorem operation_readiness (opts : Options) (pc : PeerConnection)
    (op : Operation) (arguments : list value) :
  testReady pc (operationTask opts op arguments) = true <->
  match op with
  | AddIceCandidate => localDescription pc <> VNull \/ remoteDescription pc <> VNull
  | SetLocalDescription => True
  | SetRemoteDescription | CreateAnswer => signalingState pc <> "closed"
  | CreateOffer =>
      signalingState pc <> "closed" /\ signalingState pc <> "have-local-offer"
  end.
Proof.
  assert (Hnn : forall v, notNull v = true <-> v <> VNull).
  { intros v. destruct v; simpl; split; (congruence || discriminate || tauto). }
  assert (Hne : forall s1 s2, negb (String.eqb s1 s2) = true <-> s1 <> s2).
  { intros s1 s2. rewrite negb_true_iff. apply String.eqb_neq. }
  destruct op; unfold testReady; simpl;
    unfold hasLocalOrRemoteDescription, isNotClosed, isNotNegotiating.
  - rewrite orb_true_iff, !Hnn. tauto.
  - tauto.
  - apply Hne.
  - rewrite andb_true_iff, !Hne. tauto.
  - apply Hne.
Qed.

(** X5: under the default priority table the rank of a registered
    operation's task is 1 for setLocalDescription, 2 for
    setRemoteDescription, 3 for createAnswer, 4 for createOffer and the
    default 100 for addIceCandidate when the task is ready, and 1000 when it
    is not; no task is ever ranked 0, the position of 'candidate'. *)
Theorem default_ranks (opts : Options) (pc : PeerConnection) (op : Operation)
    (arguments : list value) :
  opts_priorities opts = None ->
  let t := operationTask opts op arguments in
  rank (priorities opts) pc t =
    (if testReady pc t then defaultRank op else PRIORITY_WAIT) /\
  rank (priorities opts) pc t <> 0.
Proof.
  intros Hdef t.
  assert (Hp : priorities opts = DEFAULT_PRIORITIES).
  { unfold priorities. rewrite Hdef. reflexivity. }
  rewrite Hp.
  assert (Hr : rank DEFAULT_PRIORITIES pc t =
               (if testReady pc t then defaultRank op else PRIORITY_WAIT)).
  { unfold rank, taskPriority. destruct (testReady pc t); [|reflexivity].
    destruct op; reflexivity. }
  split; [exact Hr|]. rewrite Hr.
  destruct (testReady pc t); [destruct op|]; discriminate.
Qed.

Lemma default_ranks_witness :
  rank DEFAULT_PRIORITIES describedPc
    (operationTask defaultOptions CreateAnswer []) = 3.
Proof.
  exact (proj1 (default_ranks defaultOptions describedPc CreateAnswer [] eq_refl)).
Defined.

(** * Enqueueing *)

(** The arguments after [args.map(opts.processArgs)], for each operation. *)
Lemma callOperation_enqueue (opts : Options) (op : Operation)
    (arguments : list value) (st : State) :
  callOperation opts op arguments st =
  enqueue opts (operationName op) (operationFn op) (registration opts op)
    arguments st.
Proof. destruct op; reflexivity. Qed.

(** X6: a call of a registered operation whose arguments are accepted
    pushes exactly one task, built from the operation's registration and
    the (processed) arguments; the tasks already queued are all still
    there, the slot and the resource are untouched, nothing is called on the
    resource, and exactly one timeout is pending afterwards, with delay 5,
    whatever was pending before. *)
Theorem callOperation_pushes_one_task (opts : Options) (op : Operation)
    (arguments arguments' : list value) (st : State) :
  match opt_processArgs (registration opts op) with
  | Some f => mapArgs f arguments
  | None => Ok arguments
  end = Ok arguments' ->
  exists st',
    callOperation opts op arguments st = Normal st' /\
    queue st' ≡ₚ operationTask opts op arguments' :: queue st /\
    currentTask st' = currentTask st /\
    pc st' = pc st /\
    checkQueueTimer st' = Some 5 /\
    trace st' = (trace st ++ [Debug ("queueing: " +:+ operationName op)])%list.
Proof.
  intros Hargs. rewrite callOperation_enqueue. unfold enqueue. rewrite Hargs.
  eexists. split; [reflexivity|]. simpl.
  split; [apply enq_Permutation|]. repeat split.
Qed.

Lemma callOperation_pushes_one_task_witness :
  exists st',
    callOperation defaultOptions CreateOffer [] (initialState (plainPc "stable"))
      = Normal st' /\
    queue st' ≡ₚ [operationTask defaultOptions CreateOffer []] /\
    checkQueueTimer st' = Some 5.
Proof.
  destruct (callOperation_pushes_one_task defaultOptions CreateOffer [] []
              (initialState (plainPc "stable")) eq_refl)
    as (st' & H1 & H2 & _ & _ & H3 & _).
  exists st'. repeat split; assumption.
Defined.

Lemma mapArgs_throw (f : value -> Result value) (before after : list value)
    (x e : value) :
  Forall (fun a => exists v, f a = Ok v) before -> f x = Throw e ->
  mapArgs f (before ++ x :: after) = Throw e.
Proof.
  intros Hb Hx. induction Hb as [|a l [v Hv] _ IH]; simpl.
  - rewrite Hx. reflexivity.
  - rewrite Hv. simpl. rewrite IH. reflexivity.
Qed.

Lemma mapArgs_ok (f : value -> Result value) (l l' : list value) :
  mapArgs f l = Ok l' <-> Forall2 (fun a b => f a = Ok b) l l'.
Proof.
  revert l'. induction l as [|a l IH]; intros l'; simpl.
  - split.
    + intros H. injection H as <-. constructor.
    + intros H. inversion H. reflexivity.
  - split.
    + destruct (f a) as [b|e] eqn:Ha; simpl; [|discriminate].
      destruct (mapArgs f l) as [bs|e] eqn:Hl; simpl; [|discriminate].
      intros H. injection H as <-. constructor; [exact Ha | apply IH; reflexivity].
    + intros H. inversion H as [|a0 b l0 bs Hab Hrest]; subst.
      rewrite Hab. simpl. apply IH in Hrest. rewrite Hrest. reflexivity.
Qed.

(** X7: setRemoteDescription maps every argument through the session
    description factory before anything is queued; when the factory throws
    on an argument (those before it having been accepted) the exception
    escapes the call and the closure is unchanged: nothing is queued and no
    timeout is armed.  When it accepts them all, the task carries the
    descriptions it returned, in order. *)
Theorem setRemoteDescription_processes_arguments (opts : Options) (st : State) :
  (forall before x after e,
     Forall (fun a => exists v, createSessionDescription opts a = Ok v) before ->
     createSessionDescription opts x = Throw e ->
     tq_setRemoteDescription opts (before ++ x :: after) st = Abrupt e st) /\
  (forall arguments descriptions,
     Forall2 (fun a d => createSessionDescription opts a = Ok d)
             arguments descriptions ->
     exists st',
       tq_setRemoteDescription opts arguments st = Normal st' /\
       queue st' =
         enq (orderTasks (priorities opts) (pc st)) (queue st)
             (operationTask opts SetRemoteDescription descriptions)).
Proof.
  split.
  - intros before x after e Hb Hx. unfold tq_setRemoteDescription, enqueue. simpl.
    rewrite (mapArgs_throw _ before after x e Hb Hx). reflexivity.
  - intros arguments descriptions H. apply mapArgs_ok in H.
    unfold tq_setRemoteDescription, enqueue. simpl. rewrite H.
    eexists. split; reflexivity.
Qed.

Lemma setRemoteDescription_processes_arguments_witness :
  tq_setRemoteDescription pickyOptions
    [remoteOffer; VNull] (initialState (plainPc "stable")) =
  Abrupt (VError "not a description") (initialState (plainPc "stable")).
Proof.
  refine (proj1 (setRemoteDescription_processes_arguments pickyOptions
                   (initialState (plainPc "stable")))
            [remoteOffer] VNull [] (VError "not a description") _ eq_refl).
  constructor; [eexists; reflexivity | constructor].
Defined.

(** * Polling *)

(** X8: a poll that finds the slot occupied, the queue empty, or the head
    of the queue not ready starts nothing: queue, slot, resource and trace
    are as they were.  It arms the retry delay of 100 when the queue is not
    empty and the resource is not closed, and otherwise leaves the timer
    alone. *)
Theorem checkQueue_idle (opts : Options) (st : State) :
  occupied (currentTask st) = true \/ queue st = [] \/
  (exists t, peek (queue st) = Some t /\ testReady (pc st) t = false) ->
  checkQueue opts st =
    Normal (if negb (isEmpty (queue st)) && isNotClosed (pc st)
            then triggerQueueCheck (Some 100) st else st) /\
  let st' := stateOf (checkQueue opts st) in
  queue st' = queue st /\ currentTask st' = currentTask st /\
  pc st' = pc st /\ trace st' = trace st.
Proof.
  intros H.
  assert (Heq : checkQueue opts st =
    Normal (if negb (isEmpty (queue st)) && isNotClosed (pc st)
            then triggerQueueCheck (Some 100) st else st)).
  { unfold checkQueue. destruct H as [H | [H | (t & Hp & Hr)]].
    - rewrite H. cbn [negb]. rewrite andb_false_r. reflexivity.
    - rewrite H. reflexivity.
    - rewrite Hp. destruct (negb (isEmpty (queue st)) && negb (occupied (currentTask st)));
        [rewrite Hr|]; reflexivity. }
  split; [exact Heq|]. cbv zeta. rewrite Heq.
  destruct (negb (isEmpty (queue st)) && isNotClosed (pc st)); repeat split.
Qed.

Lemma checkQueue_idle_witness :
  checkQueue defaultOptions (busyState offerTask (plainPc "stable")) =
  Normal (busyState offerTask (plainPc "stable")).
Proof.
  apply (proj1 (checkQueue_idle defaultOptions
                  (busyState offerTask (plainPc "stable")) (or_introl eq_refl))).
Defined.

(** X9: a poll that finds the slot empty and the head of the queue ready,
    the head being a task of the direct invocation strategy whose method
    the resource has, dequeues the head and nothing else, puts it in the
    slot, and calls the method once with the task's arguments; it arms no
    timeout: the queue waits for the resource to answer. *)
Theorem checkQueue_starts_method (opts : Options) (st : State) (t : Task) :
  currentTask st = None ->
  peek (queue st) = Some t ->
  testReady (pc st) t = true ->
  fn t = ExecMethod ->
  hasMethod (pc st) (name t) = true ->
  exists rest st',
    checkQueue opts st = Normal st' /\
    queue st ≡ₚ t :: rest /\
    queue st' = rest /\
    currentTask st' = Some t /\
    checkQueueTimer st' = checkQueueTimer st /\
    pc st' = pc st /\
    trace st' = (trace st ++ [Debug ("running " +:+ name t);
                              PcCall (name t) (args t)])%list.
Proof.
  intros Hs Hpeek Hready Hfn Hm.
  destruct (deq_peek (orderTasks (priorities opts) (pc st)) (queue st) t Hpeek)
    as [rest Hdeq].
  exists rest. unfold checkQueue.
  assert (Hne : isEmpty (queue st) = false).
  { destruct (queue st); [discriminate | reflexivity]. }
  rewrite Hne, Hs. cbn [negb andb occupied]. rewrite Hpeek, Hready, Hdeq.
  cbn [negb]. unfold runTask. rewrite Hfn. unfold execMethod. simpl. rewrite Hm.
  eexists. split; [reflexivity|]. simpl.
  split; [eapply deq_Permutation; exact Hdeq|].
  repeat split. rewrite <- app_assoc. reflexivity.
Qed.

Lemma checkQueue_starts_method_witness :
  exists st',
    checkQueue defaultOptions
      (setQueue [offerTask] (initialState (plainPc "stable"))) = Normal st' /\
    currentTask st' = Some offerTask /\ queue st' = [] /\
    trace st' = [Debug "running createOffer"; PcCall "createOffer" []].
Proof.
  destruct (checkQueue_starts_method defaultOptions
              (setQueue [offerTask] (initialState (plainPc "stable")))
              offerTask eq_refl eq_refl eq_refl eq_refl eq_refl)
    as (rest & st' & H1 & H2 & H3 & H4 & _ & _ & H5).
  exists st'. split; [exact H1|]. split; [exact H4|]. split; [|exact H5].
  rewrite H3. apply Permutation_singleton_l in H2.
  destruct rest; [reflexivity | discriminate H2].
Defined.

(** * Candidates *)

(** X10: for a first argument that carries a candidate, raw or wrapped in
    an event (a truthy [srcElement] beside the candidate), the candidate
    object is built from the payload (the wrapped candidate, not the event)
    and, when neither the factory nor the resource throws, it is applied to
    the resource by one call of addIceCandidate; the continuation is then
    invoked with success, nothing is logged as invalid, and a task of the
    addIceCandidate operation settles with the poll re-armed. *)
Theorem applyCandidate_applies_candidate (opts : Options) (task : Task)
    (st : State) (c : value) :
  let data := nth 0 (args task) VUndefined in
  realCandidate data = true ->
  createIceCandidate opts (payloadOf data) = Ok c ->
  hasMethod (pc st) "addIceCandidate" = true ->
  addIceCandidateRaises (pc st) c = None ->
  payloadOf data =
    (if truthy (property data "srcElement") then property data "candidate"
     else data) /\
  applyCandidate opts task st =
    continuation opts VUndefined [] (log (PcCall "addIceCandidate" [c]) st) /\
  (currentTask st = Some task -> pass task = None ->
   applyCandidate opts task st =
     Normal (triggerQueueCheck None
               (setCurrentTask None (log (PcCall "addIceCandidate" [c]) st)))).
Proof.
  intros data Hreal Hc Hm Hraise.
  destruct (applyCandidate_cases opts task st) as (_ & _ & H). fold data in H.
  assert (Heq : applyCandidate opts task st =
    continuation opts VUndefined [] (log (PcCall "addIceCandidate" [c]) st)).
  { rewrite (H Hreal). unfold tryAddIceCandidate. rewrite Hc, Hm. simpl.
    rewrite Hraise. reflexivity. }
  split; [|split; [exact Heq|]].
  - unfold payloadOf, isEventWrapper.
    destruct (truthy (property data "srcElement")) eqn:Hs; [|reflexivity].
    destruct (truthy (property data "candidate")) eqn:Hcand; [reflexivity|].
    exfalso. unfold realCandidate, candidateMarker, payloadOf, isEventWrapper in Hreal.
    rewrite Hs, Hcand in Hreal. simpl in Hreal. rewrite Hcand in Hreal.
    rewrite andb_false_r in Hreal. discriminate Hreal.
  - intros Hslot Hpass. rewrite Heq. unfold continuation. simpl.
    rewrite Hslot, Hpass. reflexivity.
Qed.

Lemma applyCandidate_applies_candidate_witness :
  applyCandidate defaultOptions wrappedCandidate
    (busyState wrappedCandidate describedPc) =
  Normal {| queue := []; currentTask := None; checkQueueTimer := Some 5;
            pc := describedPc;
            trace := [PcCall "addIceCandidate" [remoteCandidate]] |}.
Proof.
  destruct (applyCandidate_applies_candidate defaultOptions wrappedCandidate
              (busyState wrappedCandidate describedPc) remoteCandidate
              eq_refl eq_refl eq_refl eq_refl) as (_ & _ & H).
  exact (H eq_refl eq_refl).
Defined.

(** X11: a candidate task whose first argument is missing or [null] (as
    after [tq.addIceCandidate()] or [tq.addIceCandidate(null)]) stalls the
    queue once it is promoted: reading [data.srcElement] throws out of the
    poll after the task has been put in the slot, the continuation is never
    invoked, and with the slot left occupied every later poll starts
    nothing. *)
Theorem null_candidate_stalls_queue (opts : Options) (st : State) (t : Task) :
  currentTask st = None ->
  peek (queue st) = Some t ->
  testReady (pc st) t = true ->
  fn t = ApplyCandidate ->
  isNullish (nth 0 (args t) VUndefined) = true ->
  exists e rest st',
    checkQueue opts st = Abrupt e st' /\
    deq (orderTasks (priorities opts) (pc st)) (queue st) = Some (t, rest) /\
    queue st' = rest /\ currentTask st' = Some t /\
    checkQueueTimer st' = checkQueueTimer st /\
    pcCalls (trace st') = pcCalls (trace st) /\
    forall s, currentTask s = Some t ->
      let s' := stateOf (checkQueue opts s) in
      queue s' = queue s /\ currentTask s' = Some t /\ trace s' = trace s.
Proof.
  intros Hs Hpeek Hready Hfn Hnull.
  destruct (deq_peek (orderTasks (priorities opts) (pc st)) (queue st) t Hpeek)
    as [rest Hdeq].
  set (st' := log (Debug ("running " +:+ name t))
                (setCurrentTask (Some t) (setQueue rest st))).
  destruct (applyCandidate_cases opts t st') as (H & _ & _).
  destruct (H Hnull) as [e He].
  exists e, rest, st'. split.
  { unfold checkQueue.
    assert (Hne : isEmpty (queue st) = false).
    { destruct (queue st); [discriminate | reflexivity]. }
    rewrite Hne, Hs. cbn [negb andb occupied]. rewrite Hpeek, Hready, Hdeq.
    cbn [negb]. unfold runTask. rewrite Hfn. exact He. }
  split; [exact Hdeq|]. split; [reflexivity|]. split; [reflexivity|].
  split; [reflexivity|]. split.
  { unfold pcCalls. simpl. rewrite List.filter_app. simpl. apply app_nil_r. }
  intros s Hslot.
  destruct (checkQueue_idle opts s) as (_ & Hq & Hc & _ & Ht).
  { left. rewrite Hslot. reflexivity. }
  cbv zeta. rewrite Hq, Hc, Ht. auto.
Qed.

Lemma null_candidate_stalls_queue_witness :
  exists e st',
    checkQueue defaultOptions (setQueue [nullCandidate] (initialState describedPc))
      = Abrupt e st' /\
    currentTask st' = Some nullCandidate.
Proof.
  destruct (null_candidate_stalls_queue defaultOptions
              (setQueue [nullCandidate] (initialState describedPc)) nullCandidate
              eq_refl eq_refl eq_refl eq_refl eq_refl)
    as (e & rest & st' & H1 & _ & _ & H2 & _).
  exists e, st'. split; assumption.
Defined.

(** * Settlement *)

Lemma continuation_slot (opts : Options) (err : value) (results : list value)
    (st : State) :
  currentTask (stateOf (continuation opts err results st)) = None.
Proof.
  unfold continuation. destruct (currentTask st) as [task|] eqn:Hc; [|exact Hc].
  destruct (truthy err).
  - destruct (runHandler_frame opts (default H_defaultFail (fail task)) [err]
                (log (ConsoleError err) (setCurrentTask None st))) as (Hs & _).
    exact Hs.
  - destruct (pass task) as [h|]; [|reflexivity].
    destruct (runHandler_frame opts h results (setCurrentTask None st)) as (Hs & _).
    destruct (runHandler opts h results (setCurrentTask None st)); exact Hs.
Qed.

(** X12: what the success of each registered operation's task does, once
    the slot is cleared: addIceCandidate does nothing more;
    setLocalDescription emits 'sdp' with the resource's local description
    (not with the results); setRemoteDescription enqueues a createAnswer
    task without arguments when the signaling state is 'have-remote-offer'
    and nothing otherwise; createOffer and createAnswer enqueue a
    setLocalDescription task carrying the results.  In every case the slot
    is empty afterwards and a poll is pending with delay 5. *)
Theorem success_settlement (opts : Options) (st : State) (op : Operation)
    (arguments results : list value) :
  currentTask st = Some (operationTask opts op arguments) ->
  let cmp := orderTasks (priorities opts) (pc st) in
  exists st',
    success opts results st = Normal st' /\
    currentTask st' = None /\
    checkQueueTimer st' = Some 5 /\
    pc st' = pc st /\
    queue st' =
      match op with
      | AddIceCandidate | SetLocalDescription => queue st
      | SetRemoteDescription =>
          if String.eqb (signalingState (pc st)) "have-remote-offer"
          then enq cmp (queue st) (operationTask opts CreateAnswer [])
          else queue st
      | CreateOffer | CreateAnswer =>
          enq cmp (queue st) (operationTask opts SetLocalDescription results)
      end /\
    trace st' =
      (trace st ++
       match op with
       | AddIceCandidate => []
       | SetLocalDescription => [Emit "sdp" [localDescription (pc st)]]
       | SetRemoteDescription =>
           if String.eqb (signalingState (pc st)) "have-remote-offer"
           then [Debug "queueing: createAnswer"] else []
       | CreateOffer | CreateAnswer => [Debug "queueing: setLocalDescription"]
       end)%list.
Proof.
  intros Hslot cmp. unfold success, continuation. rewrite Hslot.
  destruct op; simpl.
  - eexists. split; [reflexivity|]. simpl. rewrite app_nil_r. auto.
  - eexists. split; [reflexivity|]. simpl. auto.
  - unfold completeConnection. simpl.
    destruct (String.eqb (signalingState (pc st)) "have-remote-offer").
    + eexists. split; [reflexivity|]. simpl. auto.
    + eexists. split; [reflexivity|]. simpl. rewrite app_nil_r. auto.
  - eexists. split; [reflexivity|]. simpl. auto.
  - eexists. split; [reflexivity|]. simpl. auto.
Qed.

Lemma success_settlement_witness :
  exists st',
    success defaultOptions []
      (busyState (operationTask defaultOptions SetRemoteDescription [remoteOffer])
                 remoteOfferPc) = Normal st' /\
    queue st' = [operationTask defaultOptions CreateAnswer []] /\
    checkQueueTimer st' = Some 5.
Proof.
  destruct (success_settlement defaultOptions
              (busyState (operationTask defaultOptions SetRemoteDescription [remoteOffer])
                         remoteOfferPc)
              SetRemoteDescription [remoteOffer] [] eq_refl)
    as (st' & H1 & _ & H2 & _ & H3 & _).
  exists st'. repeat split; assumption.
Defined.

Lemma quiet_run_slot (opts : Options) (inputs : list Input) (st : State) :
  forallb isQuiet inputs = true ->
  currentTask (run opts inputs st) = currentTask st.
Proof.
  revert st. induction inputs as [|i inputs IH]; intros st Hq; [reflexivity|].
  simpl in Hq. apply andb_true_iff in Hq. destruct Hq as [Hi Hq].
  simpl. rewrite (IH _ Hq). destruct i; try discriminate Hi; simpl.
  - rewrite callOperation_enqueue.
    destruct (enqueue_frame opts (operationName op) (operationFn op)
                (registration opts op) arguments st) as (H & _).
    exact H.
  - reflexivity.
Qed.

(** X13: the continuation settles whatever task is in the slot when it is
    called, not the task whose strategy it was handed to.  After a
    settlement, and after any further calls of operations and changes of
    the resource (none of which fills the slot), another callback finds the
    slot empty: reading [currentTask.fail] throws and nothing changes.  Once
    a later poll has put another task in the slot, a late callback settles
    that task: it clears the slot and runs that task's fail handler or the
    default sink on an error, that task's pass handler and the re-arming of
    the poll on success. *)
Theorem continuation_reads_slot (opts : Options) (st : State)
    (err : value) (results : list value) :
  let st' := stateOf (continuation opts err results st) in
  (forall inputs err' results',
     forallb isQuiet inputs = true ->
     let s := run opts inputs st' in
     currentTask s = None /\
     exists e, continuation opts err' results' s = Abrupt e s) /\
  (forall inputs other err' results',
     let s := run opts inputs st' in
     currentTask s = Some other ->
     currentTask (stateOf (continuation opts err' results' s)) = None /\
     continuation opts err' results' s =
       (if truthy err'
        then runHandler opts (default H_defaultFail (fail other)) [err']
               (log (ConsoleError err') (setCurrentTask None s))
        else andThen
               match pass other with
               | Some h => runHandler opts h results' (setCurrentTask None s)
               | None => Normal (setCurrentTask None s)
               end
               (fun s => Normal (triggerQueueCheck None s)))).
Proof.
  intros st'. split.
  - intros inputs err' results' Hq s.
    assert (Hs : currentTask s = None).
    { unfold s. rewrite (quiet_run_slot opts inputs st' Hq).
      apply continuation_slot. }
    split; [exact Hs|]. unfold continuation. rewrite Hs. eexists. reflexivity.
  - intros inputs other err' results' s Hs.
    split; [apply continuation_slot|].
    unfold continuation. rewrite Hs. reflexivity.
Qed.

Lemma continuation_reads_slot_witness :
  let st' := stateOf (continuation defaultOptions VNull [VStr "sdp"]
                        (busyState offerTask (plainPc "stable"))) in
  let s := run defaultOptions [TimerFires] st' in
  currentTask s =
    Some (operationTask defaultOptions SetLocalDescription [VStr "sdp"]) /\
  continuation defaultOptions VNull [] s =
    Normal (triggerQueueCheck None (emitSdp (setCurrentTask None s))) /\
  (exists e, continuation defaultOptions VNull []
               (run defaultOptions [Invoke CreateAnswer []] st') =
             Abrupt e (run defaultOptions [Invoke CreateAnswer []] st')).
Proof.
  destruct (continuation_reads_slot defaultOptions
              (busyState offerTask (plainPc "stable")) VNull [VStr "sdp"])
    as [H1 H2].
  split; [reflexivity|]. split.
  - exact (proj2 (H2 [TimerFires]
                    (operationTask defaultOptions SetLocalDescription [VStr "sdp"])
                    VNull [] eq_refl)).
  - exact (proj2 (H1 [Invoke CreateAnswer []] VNull [] eq_refl)).
Defined.

(** X14: a failed task stops the queue.  When the task in the slot fails
    with the default sink and no timeout is pending, none is armed: the
    tasks still queued stay queued, ready or not, and the timer never
    fires again until an operation is called (which arms it). *)
Theorem failure_stops_polling (opts : Options) (st : State) (t : Task)
    (err : value) (results : list value) :
  currentTask st = Some t ->
  fail t = None ->
  truthy err = true ->
  checkQueueTimer st = None ->
  let st' := stateOf (continuation opts err results st) in
  queue st' = queue st /\
  checkQueueTimer st' = None /\
  (forall n, run opts (repeat TimerFires n) st' = st') /\
  (forall op arguments,
     let s := stateOf (callOperation opts op arguments st') in
     s = st' \/ checkQueueTimer s = Some 5).
Proof.
  intros Hslot Hfail Herr Htimer st'.
  assert (Hst' : st' = log (Emit "fail" [err])
                         (log (ConsoleError err) (setCurrentTask None st))).
  { unfold st'. rewrite (continuation_error opts err results st t Hslot Herr).
    rewrite Hfail. reflexivity. }
  assert (Ht : checkQueueTimer st' = None) by (rewrite Hst'; exact Htimer).
  split; [rewrite Hst'; reflexivity|]. split; [exact Ht|]. split.
  - induction n as [|n IH]; [reflexivity|].
    simpl. unfold fireTimer. rewrite Ht. simpl. exact IH.
  - intros op arguments. cbv zeta. rewrite callOperation_enqueue.
    destruct (enqueue_cases opts (operationName op) (operationFn op)
                (registration opts op) arguments st') as [[e H] | [a H]];
      rewrite H; [left | right]; reflexivity.
Qed.

Lemma failure_stops_polling_witness :
  let st := setQueue [operationTask defaultOptions SetLocalDescription []]
              (busyState offerTask (plainPc "stable")) in
  let st' := stateOf (continuation defaultOptions (VError "boom") [] st) in
  queue st' = [operationTask defaultOptions SetLocalDescription []] /\
  run defaultOptions (repeat TimerFires 3) st' = st'.
Proof.
  destruct (failure_stops_polling defaultOptions
              (setQueue [operationTask defaultOptions SetLocalDescription []]
                 (busyState offerTask (plainPc "stable")))
              offerTask (VError "boom") [] eq_refl eq_refl eq_refl eq_refl)
    as (H1 & _ & H2 & _).
  split; [exact H1 | exact (H2 3%nat)].
Defined.

(** * What holds however the module is used *)

Lemma prefix_append (s t : string) : String.prefix s (s +:+ t) = true.
Proof.
  induction s as [|a s IH]; simpl; [destruct t; reflexivity|].
  destruct (Ascii.ascii_dec a a); [exact IH | congruence].
Qed.

Lemma registered_operationTask (opts : Options) (op : Operation)
    (arguments : list value) :
  registered opts (operationTask opts op arguments).
Proof. exists op, arguments. reflexivity. Qed.

Lemma registered_name (opts : Options) (t : Task) :
  registered opts t -> In (name t) methodNames.
Proof.
  intros (op & a & ->). destruct op; simpl; tauto.
Qed.

Lemma registered_fail (opts : Options) (t : Task) :
  registered opts t -> fail t = None.
Proof. intros (op & a & ->). destruct op; reflexivity. Qed.

Lemma wellFormed_initial (opts : Options) (p : PeerConnection) :
  wellFormed opts (initialState p).
Proof.
  unfold wellFormed. simpl. repeat split; auto; try constructor.
  intros t H. discriminate H.
Qed.

Lemma wellFormed_log (opts : Options) (e : Event) (st : State) :
  isQueueing e = false -> isRunning e = false -> callsOnly methodNames e ->
  wellFormed opts st -> wellFormed opts (log e st).
Proof.
  intros Hq Hr Hc (H1 & H2 & H3 & H4 & H5). unfold wellFormed. simpl.
  rewrite !List.filter_app. simpl. rewrite Hq, Hr, !app_nil_r.
  repeat split; try assumption.
  apply Forall_app. split; [exact H5 | constructor; [exact Hc | constructor]].
Qed.

Lemma wellFormed_setTimer (opts : Options) (d : option Z) (st : State) :
  d = None \/ d = Some 5 \/ d = Some 100 ->
  wellFormed opts st -> wellFormed opts (setTimer d st).
Proof. intros Hd (H1 & H2 & H3 & H4 & H5). repeat split; assumption. Qed.

Lemma wellFormed_clearSlot (opts : Options) (st : State) :
  wellFormed opts st -> wellFormed opts (setCurrentTask None st).
Proof.
  intros (H1 & H2 & H3 & H4 & H5). repeat split; try assumption.
  intros t H. discriminate H.
Qed.

Lemma wellFormed_setPc (opts : Options) (p : PeerConnection) (st : State) :
  wellFormed opts st -> wellFormed opts (setPc p st).
Proof. intros (H1 & H2 & H3 & H4 & H5). repeat split; assumption. Qed.

Lemma wellFormed_callOperation (opts : Options) (op : Operation)
    (arguments : list value) (st : State) :
  wellFormed opts st ->
  wellFormed opts (stateOf (callOperation opts op arguments st)).
Proof.
  intros Hwf. rewrite callOperation_enqueue.
  destruct (enqueue_cases opts (operationName op) (operationFn op)
              (registration opts op) arguments st) as [[e H] | [a H]];
    rewrite H; simpl; [exact Hwf|].
  destruct Hwf as (H1 & H2 & H3 & H4 & H5).
  unfold wellFormed. simpl.
  pose proof (enq_Permutation (orderTasks (priorities opts) (pc st)) (queue st)
                (mkTask (operationName op) (operationFn op)
                   (registration opts op) a)) as Hperm.
  rewrite (Permutation_length Hperm).
  rewrite !List.filter_app. simpl.
  rewrite prefix_append.
  assert (Hrun : String.prefix "running " ("queueing: " +:+ operationName op) = false)
    by reflexivity.
  rewrite ?Hrun, ?app_nil_r, ?length_app. simpl.
  split.
  { apply Forall_forall. intros t Ht. apply enq_elem_of in Ht.
    destruct Ht as [-> | Ht].
    - apply (registered_operationTask opts op a).
    - rewrite Forall_forall in H1. apply H1. exact Ht. }
  split; [exact H2|]. split; [auto|]. split; [lia|].
  apply Forall_app. split; [exact H5 | constructor; [exact I | constructor]].
Qed.

Lemma wellFormed_runHandler (opts : Options) (h : Handler)
    (arguments : list value) (st : State) :
  wellFormed opts st ->
  wellFormed opts (stateOf (runHandler opts h arguments st)).
Proof.
  intros Hwf. destruct h; simpl.
  - apply wellFormed_log; (reflexivity || exact I || exact Hwf).
  - apply wellFormed_log; (reflexivity || exact I || exact Hwf).
  - unfold completeConnection.
    destruct (String.eqb (signalingState (pc st)) "have-remote-offer").
    + apply (wellFormed_callOperation opts CreateAnswer [] st Hwf).
    + exact Hwf.
  - apply wellFormed_log; (reflexivity || exact I || exact Hwf).
  - apply (wellFormed_callOperation opts AddIceCandidate arguments st Hwf).
  - apply (wellFormed_callOperation opts SetLocalDescription arguments st Hwf).
  - apply (wellFormed_callOperation opts SetRemoteDescription arguments st Hwf).
  - apply (wellFormed_callOperation opts CreateOffer arguments st Hwf).
  - apply (wellFormed_callOperation opts CreateAnswer arguments st Hwf).
Qed.

Lemma wellFormed_continuation (opts : Options) (err : value)
    (results : list value) (st : State) :
  wellFormed opts st ->
  wellFormed opts (stateOf (continuation opts err results st)).
Proof.
  intros Hwf. unfold continuation.
  destruct (currentTask st) as [task|]; [|exact Hwf].
  destruct (truthy err).
  - apply wellFormed_runHandler. apply wellFormed_log;
      (reflexivity || exact I || idtac). apply wellFormed_clearSlot. exact Hwf.
  - assert (Hh : wellFormed opts
                   (stateOf match pass task with
                            | Some h => runHandler opts h results (setCurrentTask None st)
                            | None => Normal (setCurrentTask None st)
                            end)).
    { destruct (pass task) as [h|].
      - apply wellFormed_runHandler, wellFormed_clearSlot, Hwf.
      - apply wellFormed_clearSlot, Hwf. }
    destruct (match pass task with
              | Some h => runHandler opts h results (setCurrentTask None st)
              | None => Normal (setCurrentTask None st)
              end) as [s | e s]; simpl in *; [|exact Hh].
    apply wellFormed_setTimer; [auto | exact Hh].
Qed.

Lemma wellFormed_tryAddIceCandidate (opts : Options) (data : value) (st : State) :
  wellFormed opts st -> wellFormed opts (tryAddIceCandidate opts data st).
Proof.
  intros Hwf. unfold tryAddIceCandidate.
  assert (Hcall : forall c, wellFormed opts (log (PcCall "addIceCandidate" [c]) st)).
  { intros c. apply wellFormed_log; [reflexivity | reflexivity | | exact Hwf].
    simpl. tauto. }
  destruct (createIceCandidate opts data) as [c|e].
  - destruct (hasMethod (pc st) "addIceCandidate").
    + simpl. destruct (addIceCandidateRaises (pc st) c).
      * apply wellFormed_log; (reflexivity || exact I || apply Hcall).
      * apply Hcall.
    + apply wellFormed_log; (reflexivity || exact I || exact Hwf).
  - apply wellFormed_log; (reflexivity || exact I || exact Hwf).
Qed.

Lemma wellFormed_runTask (opts : Options) (t : Task) (st : State) :
  registered opts t -> wellFormed opts st ->
  wellFormed opts (stateOf (runTask opts t st)).
Proof.
  intros Hreg Hwf. unfold runTask. destruct (fn t).
  - unfold applyCandidate.
    destruct (candidateData (nth 0 (args t) VUndefined)) as [data|e]; [|exact Hwf].
    destruct (getProp data "candidate") as [marker|e]; [|exact Hwf].
    destruct (negb (truthy marker)).
    + apply wellFormed_continuation, Hwf.
    + apply wellFormed_continuation, wellFormed_tryAddIceCandidate, Hwf.
  - unfold execMethod. destruct (hasMethod (pc st) (name t)).
    + simpl. apply wellFormed_log; [reflexivity | reflexivity | | exact Hwf].
      simpl. apply (registered_name opts t Hreg).
    + apply wellFormed_continuation, Hwf.
Qed.

Lemma wellFormed_checkQueue (opts : Options) (st : State) :
  wellFormed opts st -> wellFormed opts (stateOf (checkQueue opts st)).
Proof.
  intros Hwf. unfold checkQueue.
  destruct (negb _).
  { simpl. destruct (_ && _); [apply wellFormed_setTimer; auto | exact Hwf]. }
  destruct (deq _ _) as [[task rest]|] eqn:Hdeq; [|exact Hwf].
  pose proof (deq_Permutation _ _ _ _ Hdeq) as Hperm.
  destruct Hwf as (H1 & H2 & H3 & H4 & H5).
  assert (Hall : Forall (registered opts) (task :: rest)).
  { rewrite Forall_forall in *. intros t Ht. apply H1.
    apply (deq_elem_of _ _ _ _ t Hdeq).
    apply elem_of_cons in Ht. exact Ht. }
  apply wellFormed_runTask; [exact (Forall_inv Hall)|].
  unfold wellFormed. simpl. rewrite !List.filter_app. simpl.
  rewrite prefix_append.
  assert (Hq : String.prefix "queueing: " ("running " +:+ name task) = false)
    by reflexivity.
  rewrite ?Hq, ?app_nil_r, ?length_app. simpl.
  rewrite (Permutation_length Hperm) in H4. simpl in H4.
  split; [exact (Forall_inv_tail Hall)|].
  split; [intros t Ht; injection Ht as <-; exact (Forall_inv Hall)|].
  split; [exact H3|]. split; [lia|].
  apply Forall_app. split; [exact H5 | constructor; [exact I | constructor]].
Qed.

Lemma wellFormed_step (opts : Options) (i : Input) (st : State) :
  wellFormed opts st -> wellFormed opts (stateOf (step opts i st)).
Proof.
  intros Hwf. destruct i; simpl.
  - apply wellFormed_callOperation, Hwf.
  - unfold fireTimer. destruct (checkQueueTimer st); [|exact Hwf].
    apply wellFormed_checkQueue, wellFormed_setTimer; [auto | exact Hwf].
  - apply wellFormed_continuation, Hwf.
  - apply wellFormed_continuation, Hwf.
  - apply wellFormed_setPc, Hwf.
Qed.

Lemma wellFormed_run (opts : Options) (inputs : list Input) (st : State) :
  wellFormed opts st -> wellFormed opts (run opts inputs st).
Proof.
  revert st. induction inputs as [|i inputs IH]; intros st Hwf; simpl.
  - exact Hwf.
  - apply IH, wellFormed_step, Hwf.
Qed.

(** X15: however the module has been used, a task that fails is reported
    to the default sink: no registered operation gives its task a fail
    handler, so an error reported for the task in the slot clears the slot,
    is printed with console.error and is emitted as one 'fail' event with the
    error; nothing else happens. *)
Theorem failure_reaches_default_sink (opts : Options) (p : PeerConnection)
    (inputs : list Input) (t : Task) (err : value) (results : list value) :
  let st := run opts inputs (initialState p) in
  currentTask st = Some t ->
  truthy err = true ->
  registered opts t /\
  continuation opts err results st =
    Normal (log (Emit "fail" [err])
              (log (ConsoleError err) (setCurrentTask None st))).
Proof.
  intros st Hslot Herr.
  destruct (wellFormed_run opts inputs (initialState p)
              (wellFormed_initial opts p)) as (_ & H & _).
  fold st in H. specialize (H t Hslot). split; [exact H|].
  rewrite (continuation_error opts err results st t Hslot Herr).
  rewrite (registered_fail opts t H). reflexivity.
Qed.

Lemma failure_reaches_default_sink_witness :
  let st := run defaultOptions [Invoke CreateOffer []; TimerFires]
              (initialState (plainPc "stable")) in
  currentTask st = Some offerTask /\
  trace (stateOf (continuation defaultOptions (VError "boom") [] st)) =
    [Debug "queueing: createOffer"; Debug "running createOffer";
     PcCall "createOffer" []; ConsoleError (VError "boom");
     Emit "fail" [VError "boom"]].
Proof.
  split; [reflexivity|].
  rewrite (proj2 (failure_reaches_default_sink defaultOptions (plainPc "stable")
                    [Invoke CreateOffer []; TimerFires] offerTask
                    (VError "boom") [] eq_refl eq_refl)).
  reflexivity.
Defined.

(** X16: however the module has been used, at most one timeout is pending
    and its delay is 5 (armed by a call or by a task that settled with
    success) or 100 (armed by a poll that found nothing to start). *)
Theorem timer_delays (opts : Options) (p : PeerConnection) (inputs : list Input) :
  let st := run opts inputs (initialState p) in
  checkQueueTimer st = None \/ checkQueueTimer st = Some 5 \/
  checkQueueTimer st = Some 100.
Proof.
  destruct (wellFormed_run opts inputs (initialState p)
              (wellFormed_initial opts p)) as (_ & _ & H & _).
  exact H.
Qed.

(** X17: no task is lost and none is started twice: however the module has
    been used, the number of tasks queued so far (the 'queueing' debug
    lines) is the number of tasks still pending in the queue plus the number
    of tasks promoted to the slot so far (the 'running' debug lines). *)
Theorem tasks_conserved (opts : Options) (p : PeerConnection) (inputs : list Input) :
  let st := run opts inputs (initialState p) in
  length (List.filter isQueueing (trace st)) =
    (length (queue st) + length (List.filter isRunning (trace st)))%nat.
Proof.
  destruct (wellFormed_run opts inputs (initialState p)
              (wellFormed_initial opts p)) as (_ & _ & _ & H & _).
  exact H.
Qed.

(** X18: however the module has been used, every task in the queue or in
    the slot was built by one of the five registered operations, and the only
    methods ever called on the resource are addIceCandidate,
    setLocalDescription, setRemoteDescription, createOffer and
    createAnswer. *)
Theorem only_registered_methods (opts : Options) (p : PeerConnection)
    (inputs : list Input) :
  let st := run opts inputs (initialState p) in
  (forall t, In t (queue st) \/ currentTask st = Some t -> registered opts t) /\
  (forall m a, In (PcCall m a) (trace st) -> In m methodNames).
Proof.
  destruct (wellFormed_run opts inputs (initialState p)
              (wellFormed_initial opts p)) as (H1 & H2 & _ & _ & H5).
  cbv zeta. split.
  - intros t [Ht | Ht]; [|apply H2; exact Ht].
    rewrite Forall_forall in H1. apply H1. apply list_elem_of_In. exact Ht.
  - intros m a Hin. rewrite Forall_forall in H5.
    apply (H5 (PcCall m a)). apply list_elem_of_In. exact Hin.
Qed.

Lemma pcCalls_log (e : Event) (st : State) :
  pcCalls (trace (log e st)) =
  (pcCalls (trace st) ++ if isPcCall e then [e] else [])%list.
Proof.
  unfold pcCalls. simpl. rewrite List.filter_app. simpl.
  destruct (isPcCall e); reflexivity.
Qed.

Lemma continuation_pcCalls (opts : Options) (err : value) (results : list value)
    (st : State) :
  pcCalls (trace (stateOf (continuation opts err results st))) = pcCalls (trace st).
Proof.
  unfold continuation. destruct (currentTask st) as [task|]; [|reflexivity].
  cbv zeta. destruct (truthy err).
  - destruct (runHandler_frame opts (default H_defaultFail (fail task)) [err]
                (log (ConsoleError err) (setCurrentTask None st)))
      as (_ & _ & H & _).
    rewrite H, pcCalls_log. simpl. apply app_nil_r.
  - destruct (pass task) as [h|]; [|reflexivity].
    destruct (runHandler_frame opts h results (setCurrentTask None st))
      as (_ & _ & H & _).
    destruct (runHandler opts h results (setCurrentTask None st)); exact H.
Qed.

Lemma runTask_pcCalls (opts : Options) (t : Task) (st : State) :
  let st' := stateOf (runTask opts t st) in
  pcCalls (trace st') = pcCalls (trace st) \/
  exists m a, pcCalls (trace st') = (pcCalls (trace st) ++ [PcCall m a])%list.
Proof.
  cbv zeta. unfold runTask. destruct (fn t).
  - unfold applyCandidate.
    destruct (candidateData (nth 0 (args t) VUndefined)) as [data|e];
      [|left; reflexivity].
    destruct (getProp data "candidate") as [marker|e]; [|left; reflexivity].
    destruct (negb (truthy marker)); rewrite continuation_pcCalls;
      [left; reflexivity|].
    unfold tryAddIceCandidate.
    destruct (createIceCandidate opts data) as [c|e].
    + destruct (hasMethod (pc st) "addIceCandidate").
      * right. exists "addIceCandidate", [c]. cbv zeta.
        change (pc (log (PcCall "addIceCandidate" [c]) st)) with (pc st).
        destruct (addIceCandidateRaises (pc st) c);
          rewrite ?pcCalls_log; simpl; rewrite ?app_nil_r; reflexivity.
      * left. rewrite pcCalls_log. simpl. apply app_nil_r.
    + left. rewrite pcCalls_log. simpl. apply app_nil_r.
  - unfold execMethod. destruct (hasMethod (pc st) (name t)).
    + right. exists (name t), (args t). cbn [stateOf]. rewrite pcCalls_log. reflexivity.
    + left. apply continuation_pcCalls.
Qed.

(** X19: single flight.  Whatever reaches the module, a method of the
    resource is called only by the timeout expiring while the slot is empty
    and the head of the queue is ready, and then once: calls of the
    operations, answers of the resource and polls that find the slot
    occupied call nothing on the resource. *)
Theorem single_flight (opts : Options) (i : Input) (st : State) :
  let st' := stateOf (step opts i st) in
  pcCalls (trace st') = pcCalls (trace st) \/
  (i = TimerFires /\ currentTask st = None /\ checkQueueTimer st <> None /\
   (exists t, peek (queue st) = Some t /\ testReady (pc st) t = true) /\
   exists m a, pcCalls (trace st') = (pcCalls (trace st) ++ [PcCall m a])%list).
Proof.
  cbv zeta. destruct i; simpl.
  - left. rewrite callOperation_enqueue.
    destruct (enqueue_frame opts (operationName op) (operationFn op)
                (registration opts op) arguments st) as (_ & _ & H & _).
    exact H.
  - unfold fireTimer. destruct (checkQueueTimer st) as [d|] eqn:Hd;
      [|left; reflexivity].
    set (s := setTimer None st).
    destruct (currentTask st) as [running|] eqn:Hslot.
    { left. destruct (checkQueue_idle opts s) as (_ & _ & _ & _ & H);
        [left; simpl; rewrite Hslot; reflexivity | rewrite H; reflexivity]. }
    destruct (queue st) as [|head tl] eqn:Hq.
    { left. destruct (checkQueue_idle opts s) as (_ & _ & _ & _ & H);
        [right; left; exact Hq | rewrite H; reflexivity]. }
    destruct (testReady (pc st) head) eqn:Hready.
    2: { left. destruct (checkQueue_idle opts s) as (_ & _ & _ & _ & H);
           [right; right; exists head; simpl; rewrite Hq; auto
           | rewrite H; reflexivity]. }
    assert (Hpeek : peek (queue st) = Some head) by (rewrite Hq; reflexivity).
    assert (Hne : isEmpty (queue st) = false) by (rewrite Hq; reflexivity).
    destruct (deq_peek (orderTasks (priorities opts) (pc st)) (queue st) head
                Hpeek) as [rest Hdeq].
    assert (Heq : checkQueue opts s =
      runTask opts head
        (log (Debug ("running " +:+ name head))
           (setCurrentTask (Some head) (setQueue rest s)))).
    { unfold checkQueue.
      change (queue s) with (queue st). change (pc s) with (pc st).
      change (currentTask s) with (currentTask st).
      rewrite Hne, Hslot. cbn [negb andb occupied].
      rewrite Hpeek, Hready, Hdeq. reflexivity. }
    rewrite Heq.
    destruct (runTask_pcCalls opts head
                (log (Debug ("running " +:+ name head))
                   (setCurrentTask (Some head) (setQueue rest s))))
      as [H | (m & a & H)]; rewrite pcCalls_log in H; simpl in H;
      rewrite app_nil_r in H.
    + left. exact H.
    + right. split; [reflexivity|]. split; [reflexivity|].
      split; [discriminate|]. split; [exists head; rewrite <- Hq; auto|].
      exists m, a. exact H.
  - left. apply continuation_pcCalls.
  - left. apply continuation_pcCalls.
  - left. reflexivity.
Qed.


(** * From a call to the resource *)

(** X20: an operation of the direct invocation strategy called on an idle
    module (empty queue, empty slot) reaches the resource at the next
    expiry of the timer, provided its task is ready then and the resource
    has the method: the method is called once with the (processed)
    arguments, the task sits in the slot, the queue is empty again and no
    timeout is pending. *)
Theorem call_then_poll (opts : Options) (op : Operation)
    (arguments arguments' : list value) (st : State) :
  queue st = [] ->
  currentTask st = None ->
  operationFn op = ExecMethod ->
  match opt_processArgs (registration opts op) with
  | Some f => mapArgs f arguments
  | None => Ok arguments
  end = Ok arguments' ->
  testReady (pc st) (operationTask opts op arguments') = true ->
  hasMethod (pc st) (operationName op) = true ->
  let st' := run opts [Invoke op arguments; TimerFires] st in
  queue st' = [] /\
  currentTask st' = Some (operationTask opts op arguments') /\
  checkQueueTimer st' = None /\
  trace st' =
    (trace st ++ [Debug ("queueing: " +:+ operationName op);
                  Debug ("running " +:+ operationName op);
                  PcCall (operationName op) arguments'])%list.
Proof.
  intros Hq Hslot Hfn Hargs Hready Hm. cbv zeta. unfold run. simpl.
  rewrite callOperation_enqueue. unfold enqueue. rewrite Hargs. simpl.
  rewrite Hq. unfold fireTimer. simpl.
  unfold checkQueue. simpl. rewrite Hslot. simpl.
  change (mkTask (operationName op) (operationFn op) (registration opts op) arguments')
    with (operationTask opts op arguments').
  rewrite Hready. simpl. unfold runTask. simpl. rewrite Hfn.
  unfold execMethod. simpl. rewrite Hm. simpl.
  repeat split. rewrite <- !app_assoc. reflexivity.
Qed.

Lemma call_then_poll_witness :
  let st' := run pickyOptions [Invoke SetRemoteDescription [remoteOffer]; TimerFires]
               (initialState (plainPc "stable")) in
  currentTask st' = Some (operationTask pickyOptions SetRemoteDescription [remoteOffer]) /\
  trace st' = [Debug "queueing: setRemoteDescription";
               Debug "running setRemoteDescription";
               PcCall "setRemoteDescription" [remoteOffer]].
Proof.
  destruct (call_then_poll pickyOptions SetRemoteDescription [remoteOffer]
              [remoteOffer] (initialState (plainPc "stable"))
              eq_refl eq_refl eq_refl eq_refl eq_refl eq_refl)
    as (_ & H1 & _ & H2).
  split; [exact H1 | exact H2].
Defined.

Lemma enqAll_snoc {A : Type} (cmp : A -> A -> Z) (l : list A) (x : A) :
  enqAll cmp (l ++ [x]) = enq cmp (enqAll cmp l) x.
Proof. unfold enqAll. rewrite fold_left_app. reflexivity. Qed.

(** X21: while the resource state stands still, the order in which tasks
    were enqueued does not matter to the poll: the task at the head of the
    queue has the best (lowest) rank of all the tasks enqueued, so it is not
    ready only if none of them is; and the queue holds exactly the tasks
    enqueued. *)
Theorem poll_sees_best_rank (prios : list string) (pc : PeerConnection)
    (tasks : list Task) :
  let q := enqAll (orderTasks prios pc) tasks in
  q ≡ₚ tasks /\
  forall h, peek q = Some h ->
    (forall t, In t tasks -> rank prios pc h <= rank prios pc t) /\
    (testReady pc h = false -> forall t, In t tasks -> testReady pc t = false \/
                                         PRIORITY_WAIT <= indexOf prios (name t)).
Proof.
  cbv zeta.
  assert (Hheap : heapOrdered (rank prios pc) (enqAll (orderTasks prios pc) tasks) /\
                  enqAll (orderTasks prios pc) tasks ≡ₚ tasks).
  { induction tasks as [|x l IH] using rev_ind.
    - split; [apply heapOrdered_nil | reflexivity].
    - rewrite enqAll_snoc. destruct IH as [IH1 IH2]. split.
      + apply (enq_heapOrdered _ (rank prios pc) (orderTasks_rank prios pc)).
        exact IH1.
      + rewrite enq_Permutation, IH2. apply Permutation_cons_append. }
  destruct Hheap as [Hheap Hperm]. split; [exact Hperm|].
  intros h Hh.
  assert (Hmin : forall t, In t tasks -> rank prios pc h <= rank prios pc t).
  { intros t Ht. apply list_elem_of_In in Ht. rewrite <- Hperm in Ht.
    apply list_elem_of_lookup in Ht. destruct Ht as [i Hi].
    apply (heapOrdered_head (rank prios pc) _ h Hheap Hh i t Hi). }
  split; [exact Hmin|].
  intros Hr t Ht. specialize (Hmin t Ht).
  rewrite (rank_wait prios pc h Hr) in Hmin.
  destruct (testReady pc t) eqn:Hrt; [right | left; reflexivity].
  destruct (indexOf_bounds prios (name t)) as [Hi | Hi].
  - rewrite (rank_ready_unlisted prios pc t Hrt Hi) in Hmin.
    unfold PRIORITY_WAIT, PRIORITY_LOW in Hmin. lia.
  - rewrite (rank_ready_listed prios pc t Hrt) in Hmin by lia. exact Hmin.
Qed.
